(** * OverUnder: report extraction, session storage and the chat controller

    A shallow embedding of the TypeScript sources
      - services/geminiService.ts  (the report extractor of [sendMessageToGemini]),
      - services/storageService.ts (sessions kept in [localStorage]),
      - App.tsx                    ([handleSendMessage], [handleDeleteSession], ...),
      - components/StockReport.tsx ([parseValue]),
    and the properties of the specification proved about them. *)

From Stdlib Require Import List ZArith NArith Lia Bool Ascii String QArith.
From Stdlib Require Import Permutation Sorted DecimalString.
From Stdlib Require SpecFloat.
Import ListNotations.
Close Scope Q_scope.

Set Warnings "-register-all".

(* ================================================================== *)
(** * JavaScript strings *)
(* ================================================================== *)

(** A JavaScript string is a sequence of UTF-16 code units; [length],
    [substring], [trim] and the regular expressions of the sources all
    work on code units. *)
Module JS.

Definition code_unit := N.
Definition jsstring := list code_unit.

(** String literals of the sources (all of them ASCII). *)
Definition js (s : string) : jsstring :=
  map N_of_ascii (list_ascii_of_string s).

(** The class [\s] of regular expressions, which is also the set of code
    units that [String.prototype.trim] strips (WhiteSpace and
    LineTerminator of ECMA-262). *)
Definition is_space (c : code_unit) : bool :=
  (((0x09 <=? c) && (c <=? 0x0D)) || (c =? 0x20) || (c =? 0xA0) ||
   (c =? 0x1680) || ((0x2000 <=? c) && (c <=? 0x200A)) ||
   (c =? 0x2028) || (c =? 0x2029) || (c =? 0x202F) || (c =? 0x205F) ||
   (c =? 0x3000) || (c =? 0xFEFF))%N.

(** The class [\d]. *)
Definition is_digit (c : code_unit) : bool :=
  ((0x30 <=? c) && (c <=? 0x39))%N.

(** The longest run of code units of a class at the head of a string,
    and what is left after it. *)
Fixpoint takeWhile (cls : code_unit -> bool) (s : jsstring) : jsstring :=
  match s with
  | c :: s' => if cls c then c :: takeWhile cls s' else []
  | [] => []
  end.

Fixpoint dropWhile (cls : code_unit -> bool) (s : jsstring) : jsstring :=
  match s with
  | c :: s' => if cls c then dropWhile cls s' else s
  | [] => []
  end.

Definition trimStart (s : jsstring) : jsstring := dropWhile is_space s.

Definition trimEnd (s : jsstring) : jsstring := rev (trimStart (rev s)).

Definition trim (s : jsstring) : jsstring := trimEnd (trimStart s).

(** Truthiness of a string: only the empty string is falsy. *)
Definition truthy (s : jsstring) : bool :=
  match s with [] => false | _ :: _ => true end.

(** [a === b] on strings. *)
Fixpoint strict_eq (a b : jsstring) : bool :=
  match a, b with
  | [], [] => true
  | c :: a', d :: b' => (c =? d)%N && strict_eq a' b'
  | _, _ => false
  end.

(** [s.substring(0, n)]. *)
Definition substring0 (n : nat) (s : jsstring) : jsstring := firstn n s.

Fixpoint starts_with (p s : jsstring) : bool :=
  match p, s with
  | [], _ => true
  | c :: p', d :: s' => (c =? d)%N && starts_with p' s'
  | _ :: _, [] => false
  end.

(** Position of the first occurrence of [p] in [s], if any. *)
Fixpoint indexOf (p s : jsstring) : option nat :=
  if starts_with p s then Some 0
  else match s with
       | [] => None
       | _ :: s' => option_map S (indexOf p s')
       end.

Definition takeDigits (s : jsstring) : jsstring := takeWhile is_digit s.
Definition dropDigits (s : jsstring) : jsstring := dropWhile is_digit s.

Definition digits_value (ds : jsstring) : Z :=
  fold_left (fun acc d => (10 * acc + Z.of_N (d - 0x30))%Z) ds 0%Z.

(** The rational that the decimal literal [-?whole.fraction] denotes,
    in lowest terms. *)
Definition decimal (negative : bool) (whole fraction : jsstring) : Q :=
  let magnitude :=
    Qmake (digits_value (whole ++ fraction))
      (Z.to_pos (10 ^ Z.of_nat (List.length fraction))) in
  Qred (if negative then Qopp magnitude else magnitude).

(** [n.toString()] for an integer [n]. *)
Definition toString (n : Z) : jsstring :=
  js (NilEmpty.string_of_int (Z.to_int n)).

End JS.
Import JS.

(* ================================================================== *)
(** * Backtracking regular-expression matching *)
(* ================================================================== *)

(** The regular expressions of the sources are embedded with matchers in
    continuation-passing style, which is how ECMA-262 defines matching:
    a matcher receives the rest of the pattern as a continuation [k] and
    the input that is left, and backtracks when [k] fails. *)
Module Regex.

Section Matchers.
Context {R : Type}.

Definition cont := jsstring -> option R.

(** A literal. *)
Fixpoint lit (p : jsstring) (k : cont) (s : jsstring) : option R :=
  match p with
  | [] => k s
  | c :: p' =>
      match s with
      | d :: s' => if (c =? d)%N then lit p' k s' else None
      | [] => None
      end
  end.

(** [cls*], greedy: as many as possible first, then fewer. *)
Fixpoint star (cls : code_unit -> bool) (k : cont) (s : jsstring)
  : option R :=
  match s with
  | c :: s' =>
      if cls c then
        match star cls k s' with
        | Some r => Some r
        | None => k s
        end
      else k s
  | [] => k s
  end.

(** [cls+], greedy. *)
Definition plus (cls : code_unit -> bool) (k : cont) (s : jsstring)
  : option R :=
  match s with
  | c :: s' => if cls c then star cls k s' else None
  | [] => None
  end.

(** [m?], greedy: with [m] first, then without. *)
Definition opt (m : cont -> cont) (k : cont) (s : jsstring) : option R :=
  match m k s with
  | Some r => Some r
  | None => k s
  end.

(** [([\s\S]*?)], lazy and capturing: as few as possible first.  The
    continuation receives the captured text. *)
Fixpoint lazy_any (k : jsstring -> cont) (acc s : jsstring) : option R :=
  match k (rev acc) s with
  | Some r => Some r
  | None =>
      match s with
      | c :: s' => lazy_any k (c :: acc) s'
      | [] => None
      end
  end.

(** An unanchored search ([RegExp.prototype.exec] without the [g]
    flag): the matcher is tried at every position from the left; the
    result comes with the text before the match. *)
Fixpoint search (m : jsstring -> option R) (before s : jsstring)
  : option (jsstring * R) :=
  match m s with
  | Some r => Some (rev before, r)
  | None =>
      match s with
      | c :: s' => search m (c :: before) s'
      | [] => None
      end
  end.
End Matchers.

End Regex.
Import Regex.

(* ================================================================== *)
(** * Results of code that may throw *)
(* ================================================================== *)

Inductive result (A : Type) : Type :=
| Ok (a : A)
| Throw.
Arguments Ok {A} a.
Arguments Throw {A}.

(* ================================================================== *)
(** * JSON values *)
(* ================================================================== *)

(** The values [JSON.parse] returns.  A [StockReportData] is, at run
    time, whatever value the parser produced: the sources cast it and do
    not check its shape. *)
Inductive json : Type :=
| JNull
| JBool (b : bool)
| JNumber (q : Q)
| JString (s : jsstring)
| JArray (l : list json)
| JObject (l : list (jsstring * json)).

(* ================================================================== *)
(** * services/geminiService.ts *)
(* ================================================================== *)

Module GeminiService.

Record GroundingUrl : Type := { title : jsstring; uri : jsstring }.

Record Web : Type := { web_uri : option jsstring; web_title : option jsstring }.
Record Chunk : Type := { web : option Web }.

(** What [chatSession.sendMessage] resolves to: [result.text] and
    [result.candidates?.[0]?.groundingMetadata?.groundingChunks]. *)
Record GenerateContentResponse : Type :=
  { result_text : option jsstring;
    groundingChunks : option (list Chunk) }.

(** The model channel, as [sendMessageToGemini] meets it. *)
Inductive Channel : Type :=
| Uninitialised                          (* no API key: [chatSession] stays null *)
| Rejects                                (* [chatSession.sendMessage] rejects *)
| Resolves (r : GenerateContentResponse).

Record Reply : Type :=
  { text : jsstring;
    reportData : option json;
    groundingUrls : list GroundingUrl }.

Definition OPEN : jsstring := js "```json_report".
Definition CLOSE : jsstring := js "```".
Definition NO_RESPONSE : jsstring :=
  js "I couldn't generate a response. Please try again.".
Definition FALLBACK : jsstring :=
  js "Here is the valuation report based on the latest market data.".

(** The end of the first expression, [\s*```], after a first group [g]. *)
Definition closing (g : jsstring) : @cont (jsstring * jsstring) :=
  star is_space (lit CLOSE (fun rest => Some (g, rest))).

(** [/```json_report\s*([\s\S]*?)\s*```/], tried at one position: the
    first group and the input left after the match. *)
Definition re_report (s : jsstring) : option (jsstring * jsstring) :=
  lit OPEN (star is_space (lazy_any closing [])) s.

(** [/```json_report[\s\S]*?```/], tried at one position: the input left
    after the match. *)
Definition re_block (s : jsstring) : option jsstring :=
  lit OPEN (lazy_any (fun _ => lit CLOSE (fun rest => Some rest)) []) s.

(** [responseText.match(/```json_report\s*([\s\S]*?)\s*```/)], of which
    only [jsonMatch[1]] is used. *)
Definition jsonMatch (responseText : jsstring) : option jsstring :=
  match search re_report [] responseText with
  | Some (_, (g, _)) => Some g
  | None => None
  end.

(** [responseText.replace(/```json_report[\s\S]*?```/, '')]. *)
Definition replace_block (responseText : jsstring) : jsstring :=
  match search re_block [] responseText with
  | Some (before, rest) => before ++ rest
  | None => responseText
  end.

Definition extract_grounding (chunks : option (list Chunk))
  : list GroundingUrl :=
  match chunks with
  | None => []
  | Some cs =>
      flat_map
        (fun chunk =>
           match web chunk with
           | Some w =>
               match web_uri w, web_title w with
               | Some u, Some t =>
                   if truthy u && truthy t
                   then [{| title := t; uri := u |}] else []
               | _, _ => []
               end
           | None => []
           end) cs
  end.

Section Extractor.
(** [JSON.parse] is the platform's; [None] stands for its SyntaxError. *)
Variable JSON_parse : jsstring -> option json.

(** The report extractor: from "Attempt to parse JSON report if
    present" to the returned [text] and [reportData]. *)
Definition extractReport (responseText : jsstring)
  : jsstring * option json :=
  match jsonMatch responseText with
  | Some g =>
      if truthy g then
        match JSON_parse g with
        | Some parsed =>
            let cleanText := trim (replace_block responseText) in
            (if truthy cleanText then cleanText else FALLBACK, Some parsed)
        | None => (responseText, None)          (* catch: console.error *)
        end
      else (responseText, None)
  | None => (responseText, None)
  end.

Definition sendMessageToGemini (channel : Channel) : result Reply :=
  match channel with
  | Uninitialised => Throw
  | Rejects => Throw
  | Resolves r =>
      let responseText :=
        match result_text r with
        | Some t => if truthy t then t else NO_RESPONSE
        | None => NO_RESPONSE
        end in
      let '(cleanText, report) := extractReport responseText in
      Ok {| text := cleanText;
            reportData := report;
            groundingUrls := extract_grounding (groundingChunks r) |}
  end.
End Extractor.

End GeminiService.

(* ================================================================== *)
(** * types.ts *)
(* ================================================================== *)

Module Role.
Inductive t : Type := user | model.
End Role.

(** Optional fields ([isReport?], ...) are [option]s: [None] is a field
    that is absent (or [undefined]). *)
Module ChatMessage.
Record t : Type :=
  { id : jsstring;
    role : Role.t;
    text : jsstring;
    isReport : option bool;
    reportData : option json;
    isLoading : option bool;
    groundingUrls : option (list GeminiService.GroundingUrl) }.
End ChatMessage.

Module User.
Record t : Type :=
  { id : jsstring;
    name : jsstring;
    email : jsstring;
    avatarUrl : option jsstring }.
End User.

(** Timestamps are the integers of [Date.now()]. *)
Module ChatSession.
Record t : Type :=
  { id : jsstring;
    userId : jsstring;
    title : jsstring;
    messages : list ChatMessage.t;
    createdAt : Z;
    lastModified : Z }.
End ChatSession.

(* ================================================================== *)
(** * Arrays *)
(* ================================================================== *)

Module Array.
Section Array.
Context {A : Type}.

(** [l.findIndex(p)]: the first index whose element satisfies [p],
    [-1] when there is none. *)
Fixpoint findIndex (p : A -> bool) (l : list A) : Z :=
  match l with
  | [] => -1
  | x :: l' =>
      if p x then 0
      else let i := findIndex p l' in
           if (i <? 0)%Z then -1 else (i + 1)%Z
  end.

(** [l.find(p)]. *)
Fixpoint find (p : A -> bool) (l : list A) : option A :=
  match l with
  | [] => None
  | x :: l' => if p x then Some x else find p l'
  end.

(** [l[i] = x] for an index within the array.  (Beyond the end
    JavaScript would grow the array and leave holes; the sources only
    assign at an index that [findIndex] returned, and the model leaves
    the list as it is there.) *)
Fixpoint assign (l : list A) (i : nat) (x : A) : list A :=
  match l, i with
  | [], _ => []
  | _ :: l', O => x :: l'
  | y :: l', S i' => y :: assign l' i' x
  end.

(** [l.sort(compare)].  The algorithm is the engine's; ECMA-262 asks
    for a stable sort, which fixes the result for a consistent
    comparator.  The model is the stable insertion sort: an element
    goes before the first one that it does not sort after. *)
Fixpoint insert (compare : A -> A -> Z) (x : A) (l : list A) : list A :=
  match l with
  | [] => [x]
  | y :: l' =>
      if (compare x y <=? 0)%Z then x :: y :: l'
      else y :: insert compare x l'
  end.

Fixpoint sort (compare : A -> A -> Z) (l : list A) : list A :=
  match l with
  | [] => []
  | x :: l' => insert compare x (sort compare l')
  end.
End Array.
End Array.

(* ================================================================== *)
(** * services/storageService.ts *)
(* ================================================================== *)

Module StorageService.

(** The string kept under [STORAGE_KEYS.SESSIONS].  The model keeps what
    the sources can tell apart: the empty string (falsy); the text that
    [JSON.stringify] wrote for an array of sessions, which [JSON.parse]
    reads back as that array; and a text that is no JSON ([Garbled]), on
    which [JSON.parse] throws its SyntaxError.  A text that is JSON but
    no array of sessions is outside the model: the sources cast what
    they read to [ChatSession[]]. *)
Inductive item : Type :=
| Blank
| Garbled
| Stringified (allSessions : list ChatSession.t).

(** [localStorage.getItem(STORAGE_KEYS.SESSIONS)]: [None] is [null]. *)
Definition localStorage : Type := option item.

Definition truthy_item (stored : item) : bool :=
  match stored with Blank => false | _ => true end.

Definition JSON_parse (stored : item) : result (list ChatSession.t) :=
  match stored with
  | Stringified allSessions => Ok allSessions
  | Blank | Garbled => Throw
  end.

Definition JSON_stringify (allSessions : list ChatSession.t) : item :=
  Stringified allSessions.

Definition newest_first (a b : ChatSession.t) : Z :=
  (ChatSession.lastModified b - ChatSession.lastModified a)%Z.

Definition getChatSessions (userId : jsstring) (ls : localStorage)
  : result (list ChatSession.t) :=
  match ls with
  | None => Ok []
  | Some stored =>
      if negb (truthy_item stored) then Ok []
      else
        match JSON_parse stored with
        | Throw => Throw
        | Ok allSessions =>
            Ok (Array.sort newest_first
                  (filter (fun s => strict_eq (ChatSession.userId s) userId)
                     allSessions))
        end
  end.

Definition saveChatSession (session : ChatSession.t) (ls : localStorage)
  : result localStorage :=
  let parsed :=
    match ls with
    | None => Ok []
    | Some stored =>
        if truthy_item stored then JSON_parse stored else Ok []
    end in
  match parsed with
  | Throw => Throw
  | Ok allSessions =>
      let index :=
        Array.findIndex
          (fun s => strict_eq (ChatSession.id s) (ChatSession.id session))
          allSessions in
      let allSessions' :=
        if (0 <=? index)%Z
        then Array.assign allSessions (Z.to_nat index) session
        else allSessions ++ [session] in
      Ok (Some (JSON_stringify allSessions'))
  end.

Definition deleteChatSession (sessionId : jsstring) (ls : localStorage)
  : result localStorage :=
  match ls with
  | None => Ok ls
  | Some stored =>
      if negb (truthy_item stored) then Ok ls
      else
        match JSON_parse stored with
        | Throw => Throw
        | Ok allSessions =>
            Ok (Some (JSON_stringify
                        (filter
                           (fun s => negb (strict_eq (ChatSession.id s) sessionId))
                           allSessions)))
        end
  end.

(** [createNewSession]: the three readings of [Date.now()] are [t_id],
    [t_created] and [t_modified]. *)
Definition createNewSession (userId : jsstring) (t_id t_created t_modified : Z)
  : ChatSession.t :=
  {| ChatSession.id := toString t_id;
     ChatSession.userId := userId;
     ChatSession.title := js "New Analysis";
     ChatSession.messages := [];
     ChatSession.createdAt := t_created;
     ChatSession.lastModified := t_modified |}.

End StorageService.

(* ================================================================== *)
(** * App.tsx *)
(* ================================================================== *)

Module App.
Import StorageService.

Definition message (id : jsstring) (role : Role.t) (text : jsstring)
  : ChatMessage.t :=
  {| ChatMessage.id := id;
     ChatMessage.role := role;
     ChatMessage.text := text;
     ChatMessage.isReport := None;
     ChatMessage.reportData := None;
     ChatMessage.isLoading := None;
     ChatMessage.groundingUrls := None |}.

Definition INITIAL_WELCOME_MSG : ChatMessage.t :=
  message (js "welcome-msg") Role.model
    (js "Hello! I'm OverUnder. I can help you analyze whether a stock is overvalued or undervalued using real-time data and key financial ratios (P/E, PEG, P/B, etc.). Which stock would you like to analyze today?").

Definition APOLOGY : jsstring := js "I encountered an error. Please try again.".

(** The component's state (the [useState] cells) together with the
    browser's [localStorage]. *)
Record State : Type :=
  { user : option User.t;
    sessions : list ChatSession.t;
    currentSessionId : option jsstring;
    inputText : jsstring;
    isProcessing : bool;
    sidebarOpen : bool;
    storage : localStorage }.

(** The setters.  A setter called with an updater function applies it to
    the state the earlier updates of the handler have produced. *)
Definition setSessions (f : list ChatSession.t -> list ChatSession.t)
  (a : State) : State :=
  {| user := user a; sessions := f (sessions a);
     currentSessionId := currentSessionId a; inputText := inputText a;
     isProcessing := isProcessing a; sidebarOpen := sidebarOpen a;
     storage := storage a |}.

Definition setCurrentSessionId (id : option jsstring) (a : State) : State :=
  {| user := user a; sessions := sessions a;
     currentSessionId := id; inputText := inputText a;
     isProcessing := isProcessing a; sidebarOpen := sidebarOpen a;
     storage := storage a |}.

Definition setInputText (t : jsstring) (a : State) : State :=
  {| user := user a; sessions := sessions a;
     currentSessionId := currentSessionId a; inputText := t;
     isProcessing := isProcessing a; sidebarOpen := sidebarOpen a;
     storage := storage a |}.

Definition setIsProcessing (b : bool) (a : State) : State :=
  {| user := user a; sessions := sessions a;
     currentSessionId := currentSessionId a; inputText := inputText a;
     isProcessing := b; sidebarOpen := sidebarOpen a;
     storage := storage a |}.

Definition setSidebarOpen (b : bool) (a : State) : State :=
  {| user := user a; sessions := sessions a;
     currentSessionId := currentSessionId a; inputText := inputText a;
     isProcessing := isProcessing a; sidebarOpen := b;
     storage := storage a |}.

Definition setStorage (ls : localStorage) (a : State) : State :=
  {| user := user a; sessions := sessions a;
     currentSessionId := currentSessionId a; inputText := inputText a;
     isProcessing := isProcessing a; sidebarOpen := sidebarOpen a;
     storage := ls |}.

(** A storage call of a handler: it throws, or leaves a new store. *)
Definition stored (call : localStorage -> result localStorage) (a : State)
  : result State :=
  match call (storage a) with
  | Throw => Throw
  | Ok ls => Ok (setStorage ls a)
  end.

(** [{...session, messages, lastModified}] and the like. *)
Definition withMessages (session : ChatSession.t)
  (messages : list ChatMessage.t) (title : jsstring) (lastModified : Z)
  : ChatSession.t :=
  {| ChatSession.id := ChatSession.id session;
     ChatSession.userId := ChatSession.userId session;
     ChatSession.title := title;
     ChatSession.messages := messages;
     ChatSession.createdAt := ChatSession.createdAt session;
     ChatSession.lastModified := lastModified |}.

(** [prev.map(s => s.id === id ? session : s)]. *)
Definition replaceSession (id : jsstring) (session : ChatSession.t)
  (prev : list ChatSession.t) : list ChatSession.t :=
  map (fun s => if strict_eq (ChatSession.id s) id then session else s) prev.

(** [prev.filter(s => s.id !== id)]. *)
Definition otherSessions (id : jsstring) (prev : list ChatSession.t)
  : list ChatSession.t :=
  filter (fun s => negb (strict_eq (ChatSession.id s) id)) prev.

(** Derived state: [sessions.find(s => s.id === currentSessionId)]. *)
Definition currentSession (a : State) : option ChatSession.t :=
  match currentSessionId a with
  | Some id => Array.find (fun s => strict_eq (ChatSession.id s) id) (sessions a)
  | None => None
  end.

(** Three successive readings of [Date.now()]. *)
Record Ticks : Type := { t1 : Z; t2 : Z; t3 : Z }.

(** [startNewChat]; [innerWidth] is [window.innerWidth]. *)
Definition startNewChat (userId : jsstring) (now : Ticks) (innerWidth : Z)
  (a : State) : result State :=
  let created := createNewSession userId (t1 now) (t2 now) (t3 now) in
  let newSession :=
    withMessages created
      (ChatSession.messages created ++ [INITIAL_WELCOME_MSG])
      (ChatSession.title created) (ChatSession.lastModified created) in
  match stored (saveChatSession newSession) a with
  | Throw => Throw
  | Ok a =>
      let a := setSessions (fun prev => newSession :: prev) a in
      let a := setCurrentSessionId (Some (ChatSession.id newSession)) a in
      Ok (if (innerWidth <? 768)%Z then setSidebarOpen false a else a)
  end.

Definition loadSessions (userId : jsstring) (now : Ticks) (innerWidth : Z)
  (a : State) : result State :=
  match getChatSessions userId (storage a) with
  | Throw => Throw
  | Ok loadedSessions =>
      let a := setSessions (fun _ => loadedSessions) a in
      match loadedSessions with
      | first :: _ => Ok (setCurrentSessionId (Some (ChatSession.id first)) a)
      | [] => startNewChat userId now innerWidth a
      end
  end.

(** [handleDeleteSession].  The updater passed to [setSessions] selects
    the next session or starts a new chat; the setter calls it makes are
    queued behind its own result, [filtered]. *)
Definition handleDeleteSession (id : jsstring) (now : Ticks) (innerWidth : Z)
  (a : State) : result State :=
  match stored (deleteChatSession id) a with
  | Throw => Throw
  | Ok a =>
      let filtered := otherSessions id (sessions a) in
      let selected := currentSessionId a in
      let a := setSessions (fun _ => filtered) a in
      match selected with
      | Some current =>
          if strict_eq current id then
            match filtered with
            | next :: _ =>
                Ok (setCurrentSessionId (Some (ChatSession.id next)) a)
            | [] =>
                match user a with
                | Some u => startNewChat (User.id u) now innerWidth a
                | None => Ok a
                end
            end
          else Ok a
      | None => Ok a
      end
  end.

(** What [handleSendMessage] holds on to across its [await]. *)
Record Exchange : Type :=
  { ex_sessionId : jsstring;               (* [currentSession.id] *)
    ex_userMessage : ChatMessage.t;
    ex_updatedSession : ChatSession.t }.

(** The title of [updatedSession]. *)
Definition updatedTitle (currentSession : ChatSession.t) (inputText : jsstring)
  : jsstring :=
  if (List.length (ChatSession.messages currentSession) <=? 1)%nat then
    if (30 <? List.length inputText)%nat
    then substring0 30 inputText ++ js "..."
    else inputText
  else ChatSession.title currentSession.

Definition loadingMessage (id : jsstring) : ChatMessage.t :=
  {| ChatMessage.id := id;
     ChatMessage.role := Role.model;
     ChatMessage.text := [];
     ChatMessage.isReport := None;
     ChatMessage.reportData := None;
     ChatMessage.isLoading := Some true;
     ChatMessage.groundingUrls := None |}.

(** [handleSendMessage] up to its [await]: [None] when the guard returns
    at once. *)
Definition handleSendMessage_send (now : Ticks) (a : State)
  : result (State * option Exchange) :=
  match currentSession a, user a with
  | Some current, Some _ =>
      if negb (truthy (trim (inputText a))) || isProcessing a
      then Ok (a, None)
      else
        let userMessage :=
          message (toString (t1 now)) Role.user (inputText a) in
        let updatedMessages := ChatSession.messages current ++ [userMessage] in
        let updatedSession :=
          withMessages current updatedMessages
            (updatedTitle current (inputText a)) (t2 now) in
        let a :=
          setSessions (replaceSession (ChatSession.id current) updatedSession) a in
        match stored (saveChatSession updatedSession) a with
        | Throw => Throw
        | Ok a =>
            let a := setInputText [] a in
            let a := setIsProcessing true a in
            let loadingId := js "loading-" ++ toString (t3 now) in
            let sessionWithLoading :=
              withMessages updatedSession
                (updatedMessages ++ [loadingMessage loadingId])
                (ChatSession.title updatedSession)
                (ChatSession.lastModified updatedSession) in
            let a :=
              setSessions
                (replaceSession (ChatSession.id current) sessionWithLoading) a in
            Ok (a, Some {| ex_sessionId := ChatSession.id current;
                           ex_userMessage := userMessage;
                           ex_updatedSession := updatedSession |})
        end
  | _, _ => Ok (a, None)
  end.

(** [!!v] for a parsed JSON value. *)
Definition json_truthy (v : json) : bool :=
  match v with
  | JNull => false
  | JBool b => b
  | JNumber q => negb (Qeq_bool q 0)
  | JString s => truthy s
  | JArray _ | JObject _ => true
  end.

Section Controller.
Variable JSON_parse : jsstring -> option json.
(** The model channel: what it does with an utterance. *)
Variable gemini : jsstring -> GeminiService.Channel.

(** [handleSendMessage] once the promise of [sendMessageToGemini] has
    settled: the [try] body after the [await], [catch] and [finally]. *)
Definition handleSendMessage_settle (ex : Exchange) (now : Ticks) (a : State)
  : result State :=
  let updatedSession := ex_updatedSession ex in
  let updatedMessages := ChatSession.messages updatedSession in
  let tried :=
    match GeminiService.sendMessageToGemini JSON_parse
            (gemini (ChatMessage.text (ex_userMessage ex))) with
    | Throw => (a, false)
    | Ok response =>
        let modelMessage :=
          {| ChatMessage.id := toString (t1 now + 1);
             ChatMessage.role := Role.model;
             ChatMessage.text := GeminiService.text response;
             ChatMessage.isReport :=
               Some (match GeminiService.reportData response with
                     | Some v => json_truthy v
                     | None => false
                     end);
             ChatMessage.reportData := GeminiService.reportData response;
             ChatMessage.isLoading := None;
             ChatMessage.groundingUrls :=
               Some (GeminiService.groundingUrls response) |} in
        let finalSession :=
          withMessages updatedSession (updatedMessages ++ [modelMessage])
            (ChatSession.title updatedSession) (t2 now) in
        let a :=
          setSessions
            (fun prev => finalSession :: otherSessions (ex_sessionId ex) prev)
            a in
        match stored (saveChatSession finalSession) a with
        | Ok a => (a, true)
        | Throw => (a, false)
        end
    end in
  let caught :=
    let '(a, done) := tried in
    if done then Ok a
    else
      let errorMessage := message (toString (t1 now)) Role.model APOLOGY in
      let errorSession :=
        withMessages updatedSession (updatedMessages ++ [errorMessage])
          (ChatSession.title updatedSession) (t2 now) in
      let a :=
        setSessions (replaceSession (ex_sessionId ex) errorSession) a in
      stored (saveChatSession errorSession) a in
  match caught with
  | Ok a => Ok (setIsProcessing false a)
  | Throw => Throw
  end.

(** One whole exchange, with nothing else happening while the model
    channel is awaited. *)
Definition handleSendMessage (now now' : Ticks) (a : State) : result State :=
  match handleSendMessage_send now a with
  | Throw => Throw
  | Ok (a, None) => Ok a
  | Ok (a, Some ex) => handleSendMessage_settle ex now' a
  end.
End Controller.

End App.

(* ================================================================== *)
(** * components/StockReport.tsx *)
(* ================================================================== *)

Module StockReport.

(** Numbers are the IEEE 754 binary64 values, as the Standard Library
    specifies them: the two zeros [S754_zero s], the two infinities
    [S754_infinity s], [S754_nan], and the finite values
    [S754_finite s m e], which denote [(-1)^s * m * 2^e]. *)
Definition number : Type := SpecFloat.spec_float.

Definition prec : Z := 53.
Definition emax : Z := 1024.

(** The Number value for a mathematical value [mv >= 0] under a sign
    (RoundMVResult of ECMA-262, as the engines implement it): the
    nearest double with ties to even, an infinity when the magnitude is
    too large for a double, and the zero of the sign when the magnitude
    is 0 or rounds to it. *)
Definition roundMV (negative : bool) (mv : Q) : number :=
  match Qnum mv with
  | Zpos n =>
      SpecFloat.SFdiv prec emax
        (SpecFloat.S754_finite negative n 0)
        (SpecFloat.S754_finite false (Qden mv) 0)
  | _ => SpecFloat.S754_zero negative
  end.

(** [string | number]. *)
Inductive value : Type :=
| Str (s : jsstring)
| Number (n : number).

Definition COMMA : code_unit := 0x2C%N.
Definition MINUS : code_unit := 0x2D%N.
Definition DOT : code_unit := 0x2E%N.

(** [s.replace(/,/g, '')]. *)
Definition remove_commas (s : jsstring) : jsstring :=
  filter (fun c => negb (c =? COMMA)%N) s.

(** [/-?\d+(\.\d+)?/], tried at one position: the text matched. *)
Definition re_number (s : jsstring) : option jsstring :=
  opt (lit [MINUS])
    (plus is_digit
       (opt (fun k => lit [DOT] (plus is_digit k))
          (fun rest => Some (firstn (List.length s - List.length rest) s)))) s.

(** [parseFloat], on the texts that the expression of [parseValue]
    matches: an optional minus sign, digits, and an optional fraction.
    The sign is applied after the rounding, so that the text [-0] gives
    the negative zero.  Any other text is [NaN] in the model. *)
Definition parseFloat (m : jsstring) : number :=
  let negative :=
    match m with
    | c :: _ => (c =? MINUS)%N
    | [] => false
    end in
  let body := if negative then tl m else m in
  let whole := takeDigits body in
  match whole, dropDigits body with
  | [], _ => SpecFloat.S754_nan
  | _ :: _, [] => roundMV negative (decimal false whole [])
  | _ :: _, c :: fraction =>
      if (c =? DOT)%N && forallb is_digit fraction
      then roundMV negative (decimal false whole fraction)
      else SpecFloat.S754_nan
  end.

Definition parseValue (val : value) : number :=
  match val with
  | Number n => n
  | Str s =>
      match search re_number [] (remove_commas s) with
      | Some (_, clean0) => parseFloat clean0
      | None => SpecFloat.S754_zero false
      end
  end.

End StockReport.

(* ================================================================== *)
(** * A reader of JSON texts *)
(* ================================================================== *)

(** [JSON.parse] is a parameter of the extractor.  To run the extractor
    on examples, this module gives one reader to put in its place: it
    reads the JSON texts without [\u] escapes and exponents, and rejects
    every other text. *)
Module JsonText.

Definition is_json_space (c : code_unit) : bool :=
  ((c =? 0x20) || (c =? 0x09) || (c =? 0x0A) || (c =? 0x0D))%N.

Fixpoint skip_space (s : jsstring) : jsstring :=
  match s with
  | c :: s' => if is_json_space c then skip_space s' else s
  | [] => []
  end.

Definition unescape (c : code_unit) : option code_unit :=
  (if c =? 0x22 then Some 0x22          (* a quote *)
   else if c =? 0x5C then Some 0x5C     (* a backslash *)
   else if c =? 0x2F then Some 0x2F     (* a slash *)
   else if c =? 0x62 then Some 0x08     (* b: backspace *)
   else if c =? 0x66 then Some 0x0C     (* f: form feed *)
   else if c =? 0x6E then Some 0x0A     (* n: line feed *)
   else if c =? 0x72 then Some 0x0D     (* r: carriage return *)
   else if c =? 0x74 then Some 0x09     (* t: tab *)
   else None)%N.

Definition consed {A B : Type} (x : A) (r : option (list A * B))
  : option (list A * B) :=
  match r with
  | Some (l, rest) => Some (x :: l, rest)
  | None => None
  end.

(** The characters of a string after its opening quote, up to the
    closing one. *)
Fixpoint read_string (s : jsstring) : option (jsstring * jsstring) :=
  match s with
  | [] => None
  | c :: s' =>
      if (c =? 0x22)%N then Some ([], s')
      else if (c =? 0x5C)%N then
        match s' with
        | e :: s'' =>
            match unescape e with
            | Some u => consed u (read_string s'')
            | None => None
            end
        | [] => None
        end
      else if (c <? 0x20)%N then None
      else consed c (read_string s')
  end.

Definition read_number (s : jsstring) : option (Q * jsstring) :=
  let '(negative, body) :=
    match s with
    | c :: s' => if (c =? 0x2D)%N then (true, s') else (false, s)
    | [] => (false, s)
    end in
  let whole := takeDigits body in
  let leading_zero :=
    match whole with
    | c :: _ :: _ => (c =? 0x30)%N
    | _ => false
    end in
  match whole with
  | [] => None
  | _ :: _ =>
      if leading_zero then None
      else
        match dropDigits body with
        | c :: s' =>
            if (c =? 0x2E)%N then
              match takeDigits s' with
              | [] => None
              | fraction => Some (decimal negative whole fraction, dropDigits s')
              end
            else Some (decimal negative whole [], c :: s')
        | [] => Some (decimal negative whole [], [])
        end
  end.

Definition keyword (word : jsstring) (v : json) (s : jsstring)
  : option (json * jsstring) :=
  if starts_with word s then Some (v, skipn (List.length word) s) else None.

Fixpoint read_value (fuel : nat) (s : jsstring) : option (json * jsstring) :=
  match fuel with
  | O => None
  | S fuel =>
      match skip_space s with
      | [] => None
      | c :: s' =>
          if (c =? 0x5B)%N then                       (* [ *)
            match skip_space s' with
            | d :: s'' =>
                if (d =? 0x5D)%N then Some (JArray [], s'')
                else
                  match read_elements fuel s' with
                  | Some (l, rest) => Some (JArray l, rest)
                  | None => None
                  end
            | [] => None
            end
          else if (c =? 0x7B)%N then                  (* { *)
            match skip_space s' with
            | d :: s'' =>
                if (d =? 0x7D)%N then Some (JObject [], s'')
                else
                  match read_members fuel s' with
                  | Some (l, rest) => Some (JObject l, rest)
                  | None => None
                  end
            | [] => None
            end
          else if (c =? 0x22)%N then
            match read_string s' with
            | Some (str, rest) => Some (JString str, rest)
            | None => None
            end
          else if (c =? 0x6E)%N then keyword (js "null") JNull (c :: s')
          else if (c =? 0x74)%N then keyword (js "true") (JBool true) (c :: s')
          else if (c =? 0x66)%N then keyword (js "false") (JBool false) (c :: s')
          else
            match read_number (c :: s') with
            | Some (q, rest) => Some (JNumber q, rest)
            | None => None
            end
      end
  end

with read_elements (fuel : nat) (s : jsstring)
  : option (list json * jsstring) :=
  match fuel with
  | O => None
  | S fuel =>
      match read_value fuel s with
      | Some (v, rest) =>
          match skip_space rest with
          | d :: rest' =>
              if (d =? 0x2C)%N then consed v (read_elements fuel rest')
              else if (d =? 0x5D)%N then Some ([v], rest')
              else None
          | [] => None
          end
      | None => None
      end
  end

with read_members (fuel : nat) (s : jsstring)
  : option (list (jsstring * json) * jsstring) :=
  match fuel with
  | O => None
  | S fuel =>
      match skip_space s with
      | q :: s' =>
          if (q =? 0x22)%N then
            match read_string s' with
            | Some (key, rest) =>
                match skip_space rest with
                | colon :: rest' =>
                    if (colon =? 0x3A)%N then
                      match read_value fuel rest' with
                      | Some (v, rest'') =>
                          match skip_space rest'' with
                          | d :: rest''' =>
                              if (d =? 0x2C)%N
                              then consed (key, v) (read_members fuel rest''')
                              else if (d =? 0x7D)%N
                              then Some ([(key, v)], rest''')
                              else None
                          | [] => None
                          end
                      | None => None
                      end
                    else None
                | [] => None
                end
            | None => None
            end
          else None
      | [] => None
      end
  end.

Definition read (s : jsstring) : option json :=
  match read_value (2 * List.length s + 2) s with
  | Some (v, rest) =>
      match skip_space rest with
      | [] => Some v
      | _ :: _ => None
      end
  | None => None
  end.

End JsonText.

(* ================================================================== *)
(** * The vocabulary of the specification *)
(* ================================================================== *)

Import GeminiService StorageService App StockReport.

(** ** Report fences *)

(** [text] holds a report fence: the opening marker occurs first at the
    end of [pre], and the closing marker occurs first, after it, at the
    end of [raw]. *)
Definition fenced (text pre raw post : jsstring) : Prop :=
  text = pre ++ OPEN ++ raw ++ CLOSE ++ post /\
  indexOf OPEN text = Some (List.length pre) /\
  indexOf CLOSE (raw ++ CLOSE ++ post) = Some (List.length raw).

(** ** The session store *)

(** A session is at least as recent as another. *)
Definition newer_or_same (a b : ChatSession.t) : Prop :=
  (ChatSession.lastModified b <= ChatSession.lastModified a)%Z.

(** The collection that a store holds; an empty store holds none. *)
Definition stored_sessions (ls : localStorage) : list ChatSession.t :=
  match ls with
  | Some (Stringified allSessions) => allSessions
  | _ => []
  end.

(** The store is empty or holds a collection that [JSON.parse] reads. *)
Definition readable (ls : localStorage) : Prop := ls <> Some Garbled.

Definition owned_by (userId : jsstring) (s : ChatSession.t) : bool :=
  strict_eq (ChatSession.userId s) userId.

Definition has_id (id : jsstring) (s : ChatSession.t) : bool :=
  strict_eq (ChatSession.id s) id.

(** "Upsert by id", in the words of the specification: if no record
    with the id of [session] exists, append, else replace in place (the
    first such record). *)
Fixpoint upsert (session : ChatSession.t) (l : list ChatSession.t)
  : list ChatSession.t :=
  match l with
  | [] => [session]
  | s :: l' =>
      if has_id (ChatSession.id session) s then session :: l'
      else s :: upsert session l'
  end.

(** [saveSession(S)] followed by [listSessions(S.userId)]. *)
Definition save_then_list (session : ChatSession.t) (ls : localStorage)
  : result (list ChatSession.t) :=
  match saveChatSession session ls with
  | Ok ls' => getChatSessions (ChatSession.userId session) ls'
  | Throw => Throw
  end.

(** [saveSession(S)] twice. *)
Definition save_twice (session : ChatSession.t) (ls : localStorage)
  : result localStorage :=
  match saveChatSession session ls with
  | Ok ls' => saveChatSession session ls'
  | Throw => Throw
  end.

(** The stores that the storage service itself writes, starting from a
    browser that holds nothing. *)
Inductive written : localStorage -> Prop :=
| written_nothing : written None
| written_save session ls ls' :
    written ls -> saveChatSession session ls = Ok ls' -> written ls'
| written_delete id ls ls' :
    written ls -> deleteChatSession id ls = Ok ls' -> written ls'.

(** ** The controller *)

(** No message of the list is a loading placeholder. *)
Definition no_placeholder (messages : list ChatMessage.t) : Prop :=
  Forall (fun m => ChatMessage.isLoading m = None) messages.

(** What [handleSendMessage] has built when it reaches its [await]. *)
Definition userMessage_of (now : Ticks) (a : State) : ChatMessage.t :=
  message (toString (t1 now)) Role.user (inputText a).

Definition updatedSession_of (now : Ticks) (a : State)
  (current : ChatSession.t) : ChatSession.t :=
  withMessages current
    (ChatSession.messages current ++ [userMessage_of now a])
    (updatedTitle current (inputText a)) (t2 now).

(** The guard of [handleSendMessage] lets the input through: there is a
    selected session and a user, the input is not blank, and no exchange
    is under way. *)
Definition sendable (a : State) (current : ChatSession.t) : Prop :=
  currentSession a = Some current /\
  user a <> None /\
  truthy (trim (inputText a)) = true /\
  isProcessing a = false.

(** No session in memory holds a loading placeholder. *)
Definition tidy (a : State) : Prop :=
  Forall (fun s => no_placeholder (ChatSession.messages s)) (sessions a).

(** ** Numeric substrings *)

(** The numeric text at the head of a string, if there is one: an
    optional minus sign, the longest run of digits (at least one), and a
    dot with the digits after it when at least one digit follows. *)
Definition numeric_at (s : jsstring) : option jsstring :=
  let negative :=
    match s with
    | c :: _ => (c =? MINUS)%N
    | [] => false
    end in
  let body := if negative then tl s else s in
  match takeDigits body with
  | [] => None
  | whole =>
      let fraction :=
        match dropDigits body with
        | c :: f =>
            if (c =? DOT)%N then
              match takeDigits f with
              | [] => []
              | digits => DOT :: digits
              end
            else []
        | [] => []
        end in
      Some ((if negative then [MINUS] else []) ++ whole ++ fraction)
  end.

(** A string without its commas. *)
Fixpoint without_commas (s : jsstring) : jsstring :=
  match s with
  | [] => []
  | c :: s' =>
      if (c =? 0x2C)%N then without_commas s' else c :: without_commas s'
  end.

(** The first numeric substring of a string. *)
Fixpoint first_numeric (s : jsstring) : option jsstring :=
  match numeric_at s with
  | Some m => Some m
  | None =>
      match s with
      | _ :: s' => first_numeric s'
      | [] => None
      end
  end.

(* ================================================================== *)
(** * Examples *)
(* ================================================================== *)

Module Examples.

Definition quoted (s : string) : jsstring := [0x22%N] ++ js s ++ [0x22%N].
Definition LF : jsstring := [0x0A%N].

(** A reply that carries a report. *)
Definition report_pre : jsstring := js "Here is my analysis of Apple." ++ LF.
Definition report_raw : jsstring :=
  LF ++ js "{" ++ quoted "symbol" ++ js ": " ++ quoted "AAPL" ++ js ", "
     ++ quoted "confidenceScore" ++ js ": 80}" ++ LF.
Definition report_post : jsstring := LF ++ js "Ask me about another stock.".
Definition report_reply : jsstring :=
  report_pre ++ OPEN ++ report_raw ++ CLOSE ++ report_post.
Definition report_value : json :=
  JObject [(js "symbol", JString (js "AAPL"));
           (js "confidenceScore", JNumber (inject_Z 80))].

(** A reply whose report is cut short. *)
Definition broken_raw : jsstring :=
  LF ++ js "{" ++ quoted "symbol" ++ js ": " ++ LF.
Definition broken_reply : jsstring :=
  report_pre ++ OPEN ++ broken_raw ++ CLOSE ++ report_post.

(** A reply without a report. *)
Definition plain_reply : jsstring :=
  js "Which stock would you like me to look at?".

Definition session (id : string) (userId : string) (title : string)
  (lastModified : Z) : ChatSession.t :=
  {| ChatSession.id := js id;
     ChatSession.userId := js userId;
     ChatSession.title := js title;
     ChatSession.messages := [INITIAL_WELCOME_MSG];
     ChatSession.createdAt := 1700000000000;
     ChatSession.lastModified := lastModified |}.

Definition demo : jsstring := js "user_12345".
Definition S1 := session "1700000000001" "user_12345" "Apple" 1700000005000.
Definition S2 := session "1700000000002" "user_12345" "Nvidia" 1700000003000.
Definition S3 := session "1700000000003" "user_67890" "Tesla" 1700000004000.
(** [S2], modified since. *)
Definition S2' := session "1700000000002" "user_12345" "Nvidia" 1700000009000.
(** A second record with the id of [S2]. *)
Definition S2dup := session "1700000000002" "user_12345" "Copy" 1700000001000.

Definition store : localStorage := Some (Stringified [S2; S3; S1]).
Definition store_dup : localStorage := Some (Stringified [S2; S2dup]).
Definition corrupt : localStorage := Some Garbled.

Definition NVDA_QUESTION : jsstring :=
  js "Should I buy NVDA? What about its PEG ratio and growth outlook".

Definition demo_user : User.t :=
  {| User.id := js "user_12345";
     User.name := js "Demo User";
     User.email := js "demo.user@gmail.com";
     User.avatarUrl := None |}.

Definition fresh : ChatSession.t :=
  session "1700000000004" "user_12345" "New Analysis" 1700000000004.

(** The user has typed the question into a new session. *)
Definition asking : State :=
  {| user := Some demo_user;
     sessions := [fresh];
     currentSessionId := Some (js "1700000000004");
     inputText := NVDA_QUESTION;
     isProcessing := false;
     sidebarOpen := false;
     storage := Some (Stringified [fresh]) |}.

(** Two sessions, the first one selected. *)
Definition two_sessions : State :=
  {| user := Some demo_user;
     sessions := [S1; S2];
     currentSessionId := Some (ChatSession.id S1);
     inputText := [];
     isProcessing := false;
     sidebarOpen := false;
     storage := store |}.


Definition clock : Ticks :=
  {| t1 := 1700000010000; t2 := 1700000010001; t3 := 1700000010002 |}.
Definition clock' : Ticks :=
  {| t1 := 1700000012000; t2 := 1700000012001; t3 := 1700000012002 |}.

(** A model channel that is down. *)
Definition offline (_ : jsstring) : Channel := Rejects.

(** The exchange of the specification's scenario: the model channel
    answers "Analyze AAPL" with a report. *)
Definition answering (_ : jsstring) : Channel :=
  Resolves {| result_text := Some report_reply;
              groundingChunks :=
                Some [{| web := Some {| web_uri := Some (js "https://example.com/aapl");
                                        web_title := Some (js "Apple") |} |};
                      {| web := None |}] |}.

End Examples.
Import Examples.

(* ================================================================== *)
(** * components/StockReport.tsx: the heuristic of [MetricRangeBar] *)
(* ================================================================== *)

Module MetricRangeBar.

Inductive Signal : Type := undervalued | overvalued | neutral.

Record StockMetric : Type :=
  { label : jsstring;
    value : StockReport.value;
    benchmark : StockReport.value;
    signal : Signal;
    explanation : jsstring }.

(** [x !== 0] for a number. *)
Definition nonzero (x : number) : bool :=
  match x with
  | SpecFloat.S754_zero _ => false
  | _ => true
  end.

(** [s.includes('0')]. *)
Definition includes_zero (s : jsstring) : bool :=
  existsb (fun c => (c =? 0x30)%N) s.

Section Heuristic.
(** [n.toString()] for a number is the platform's. *)
Variable numberToString : number -> jsstring.

(** [val.toString()] for a [string | number]. *)
Definition valToString (val : StockReport.value) : jsstring :=
  match val with
  | Str s => s
  | Number n => numberToString n
  end.

(** One half of [isValid]:
    [parseValue(v) !== 0 || v.toString().includes('0')]. *)
Definition parsed_or_zero (val : StockReport.value) : bool :=
  nonzero (parseValue val) || includes_zero (valToString val).

(** "If parsing failed (result is 0) and the original string didn't look
    like 0, don't show bar." *)
Definition isValid (metric : StockMetric) : bool :=
  parsed_or_zero (value metric) && parsed_or_zero (benchmark metric).
End Heuristic.

End MetricRangeBar.

(* ================================================================== *)
(** * Login and logout (services/storageService.ts, App.tsx) *)
(* ================================================================== *)

Module Login.

(** The string kept under [STORAGE_KEYS.USER], as for the sessions. *)
Inductive user_item : Type :=
| UserBlank
| UserGarbled
| UserStringified (u : User.t).

(** The component state with its [isLoginLoading] cell, and the user key
    of [localStorage]. *)
Record Browser : Type :=
  { app : State;
    isLoginLoading : bool;
    overunder_user : option user_item }.

Definition DEMO_USER : User.t :=
  {| User.id := js "user_12345";
     User.name := js "Demo User";
     User.email := js "demo.user@gmail.com";
     User.avatarUrl :=
       Some (js "https://ui-avatars.com/api/?name=Demo+User&background=0D8ABC&color=fff") |}.

Definition withApp (a : State) (b : Browser) : Browser :=
  {| app := a; isLoginLoading := isLoginLoading b;
     overunder_user := overunder_user b |}.

Definition setIsLoginLoading (l : bool) (b : Browser) : Browser :=
  {| app := app b; isLoginLoading := l; overunder_user := overunder_user b |}.

Definition setUserItem (i : option user_item) (b : Browser) : Browser :=
  {| app := app b; isLoginLoading := isLoginLoading b; overunder_user := i |}.

Definition setUser (u : option User.t) (a : State) : State :=
  {| user := u; sessions := sessions a;
     currentSessionId := currentSessionId a; inputText := inputText a;
     isProcessing := isProcessing a; sidebarOpen := sidebarOpen a;
     storage := storage a |}.

(** [mockGoogleLogin], once its timer has fired: the user it resolves
    to, written under the user key. *)
Definition mockGoogleLogin (b : Browser) : Browser * User.t :=
  (setUserItem (Some (UserStringified DEMO_USER)) b, DEMO_USER).

Definition logoutUser (b : Browser) : Browser := setUserItem None b.

Definition truthy_user_item (stored : user_item) : bool :=
  match stored with UserBlank => false | _ => true end.

Definition JSON_parse_user (stored : user_item) : result User.t :=
  match stored with
  | UserStringified u => Ok u
  | UserBlank | UserGarbled => Throw
  end.

(** [stored ? JSON.parse(stored) : null]. *)
Definition getCurrentUser (b : Browser) : result (option User.t) :=
  match overunder_user b with
  | None => Ok None
  | Some stored =>
      if truthy_user_item stored then
        match JSON_parse_user stored with
        | Ok u => Ok (Some u)
        | Throw => Throw
        end
      else Ok None
  end.

(** The state that [loadSessions] leaves, also when it throws: from
    [getChatSessions], before any setter, or from [saveChatSession] in
    [startNewChat], after [setSessions(loadedSessions)]. *)
Definition loadSessions_caught (userId : jsstring) (now : Ticks)
  (innerWidth : Z) (a : State) : State :=
  match loadSessions userId now innerWidth a with
  | Ok a' => a'
  | Throw =>
      match getChatSessions userId (storage a) with
      | Throw => a
      | Ok loadedSessions => setSessions (fun _ => loadedSessions) a
      end
  end.

(** [handleLogin], with nothing else happening while the login is
    awaited: [try], [catch] (which only logs) and [finally]. *)
Definition handleLogin (now : Ticks) (innerWidth : Z) (b : Browser)
  : Browser :=
  let b := setIsLoginLoading true b in
  let '(b, loggedInUser) := mockGoogleLogin b in
  let a := setUser (Some loggedInUser) (app b) in
  let a := loadSessions_caught (User.id loggedInUser) now innerWidth a in
  setIsLoginLoading false (withApp a b).

Definition handleLogout (b : Browser) : Browser :=
  let b := logoutUser b in
  let a := setUser None (app b) in
  let a := setSessions (fun _ => []) a in
  let a := setCurrentSessionId None a in
  withApp a b.

(** The effect run when the component mounts ("Initialize Auth
    Check"). *)
Definition initAuth (now : Ticks) (innerWidth : Z) (b : Browser)
  : result Browser :=
  match getCurrentUser b with
  | Throw => Throw
  | Ok None => Ok b
  | Ok (Some currentUser) =>
      match loadSessions (User.id currentUser) now innerWidth
              (setUser (Some currentUser) (app b)) with
      | Throw => Throw
      | Ok a => Ok (withApp a b)
      end
  end.

(** The component mounted anew over the same [localStorage], as after
    the page is loaded again: every cell of the state has its initial
    value. *)
Definition mounted (b : Browser) : Browser :=
  {| app := {| user := None;
               sessions := [];
               currentSessionId := None;
               inputText := [];
               isProcessing := false;
               sidebarOpen := false;
               storage := storage (app b) |};
     isLoginLoading := false;
     overunder_user := overunder_user b |}.

End Login.

(* ================================================================== *)
(** * More vocabulary *)
(* ================================================================== *)

(** No session of the store holds a loading placeholder. *)
Definition store_tidy (ls : localStorage) : Prop :=
  Forall (fun s => no_placeholder (ChatSession.messages s)) (stored_sessions ls).

(** No loading placeholder in memory or in the store. *)
Definition spotless (a : State) : Prop := tidy a /\ store_tidy (storage a).

(** What [getChatSessions] lists for a user, when the store can be
    read. *)
Definition listing (userId : jsstring) (ls : localStorage)
  : list ChatSession.t :=
  Array.sort newest_first (filter (owned_by userId) (stored_sessions ls)).

(** The message that replaces the placeholder when the model channel has
    answered, and the one that replaces it when the call has thrown. *)
Definition modelMessage_of (now' : Ticks) (response : Reply) : ChatMessage.t :=
  {| ChatMessage.id := toString (t1 now' + 1);
     ChatMessage.role := Role.model;
     ChatMessage.text := text response;
     ChatMessage.isReport :=
       Some (match reportData response with
             | Some v => json_truthy v
             | None => false
             end);
     ChatMessage.reportData := reportData response;
     ChatMessage.isLoading := None;
     ChatMessage.groundingUrls := Some (groundingUrls response) |}.

Definition errorMessage_of (now' : Ticks) : ChatMessage.t :=
  message (toString (t1 now')) Role.model APOLOGY.

(** The session that a whole exchange ends with. *)
Definition settledSession_of (now now' : Ticks) (a : State)
  (current : ChatSession.t) (last : ChatMessage.t) : ChatSession.t :=
  withMessages (updatedSession_of now a current)
    (ChatSession.messages (updatedSession_of now a current) ++ [last])
    (ChatSession.title (updatedSession_of now a current)) (t2 now').

(** The session that [startNewChat] makes: a new session that holds the
    welcome message. *)
Definition newSession_of (userId : jsstring) (now : Ticks) : ChatSession.t :=
  withMessages (createNewSession userId (t1 now) (t2 now) (t3 now))
    (ChatSession.messages (createNewSession userId (t1 now) (t2 now) (t3 now))
       ++ [INITIAL_WELCOME_MSG])
    (ChatSession.title (createNewSession userId (t1 now) (t2 now) (t3 now)))
    (ChatSession.lastModified
       (createNewSession userId (t1 now) (t2 now) (t3 now))).

(** A string in which some code unit is a digit. *)
Definition has_digit (s : jsstring) : bool := existsb is_digit s.

(** A field of a metric in which [MetricRangeBar] can find a number: a
    number, or a string that holds a digit. *)
Definition looks_numeric (val : StockReport.value) : bool :=
  match val with
  | Str s => has_digit s
  | Number _ => true
  end.

Module MoreExamples.

(** A blank input in an otherwise ready state. *)
Definition blank_input : State :=
  {| user := Some demo_user;
     sessions := [fresh];
     currentSessionId := Some (js "1700000000004");
     inputText := js "   ";
     isProcessing := false;
     sidebarOpen := false;
     storage := Some (Stringified [fresh]) |}.

(** Two sessions, the second one selected. *)
Definition second_selected : State :=
  {| user := Some demo_user;
     sessions := [S1; S2];
     currentSessionId := Some (ChatSession.id S2);
     inputText := [];
     isProcessing := false;
     sidebarOpen := false;
     storage := store |}.

(** A session of another user that has the id of [S2]. *)
Definition intruder : ChatSession.t :=
  session "1700000000002" "user_67890" "Other" 1700000006000.

(** Nobody is logged in; the store holds sessions of two users. *)
Definition logged_out : Login.Browser :=
  {| Login.app :=
       {| user := None;
          sessions := [];
          currentSessionId := None;
          inputText := [];
          isProcessing := false;
          sidebarOpen := false;
          storage := store |};
     Login.isLoginLoading := false;
     Login.overunder_user := None |}.

(** The same, with a session store that cannot be read. *)
Definition logged_out_corrupt : Login.Browser :=
  {| Login.app :=
       {| user := None;
          sessions := [];
          currentSessionId := None;
          inputText := [];
          isProcessing := false;
          sidebarOpen := false;
          storage := corrupt |};
     Login.isLoginLoading := false;
     Login.overunder_user := None |}.

(** The demo user is logged in, with the sessions of [two_sessions]. *)
Definition logged_in : Login.Browser :=
  {| Login.app := two_sessions;
     Login.isLoginLoading := false;
     Login.overunder_user := Some (Login.UserStringified Login.DEMO_USER) |}.

(** A metric as the model is told to write it, and one without
    numbers. *)
Definition pe_ratio : MetricRangeBar.StockMetric :=
  {| MetricRangeBar.label := js "P/E Ratio";
     MetricRangeBar.value := Str (js "25.4");
     MetricRangeBar.benchmark := Str (js "Industry Avg 28.0");
     MetricRangeBar.signal := MetricRangeBar.undervalued;
     MetricRangeBar.explanation := js "Lower than industry peer average." |}.

Definition no_dividend : MetricRangeBar.StockMetric :=
  {| MetricRangeBar.label := js "Dividend Yield";
     MetricRangeBar.value := Str (js "N/A");
     MetricRangeBar.benchmark := Str (js "1.5%");
     MetricRangeBar.signal := MetricRangeBar.neutral;
     MetricRangeBar.explanation := js "The company pays no dividend." |}.

(** A [toString] for numbers that is right at zero, which is all the
    heuristic asks of it. *)
Definition zero_toString (n : number) : jsstring :=
  match n with
  | SpecFloat.S754_zero _ => js "0"
  | SpecFloat.S754_nan => js "NaN"
  | _ => js "1"
  end.

(** A reply with three grounding chunks, one of them without a title. *)
Definition cited : GenerateContentResponse :=
  {| result_text := Some plain_reply;
     groundingChunks :=
       Some [{| web := Some {| web_uri := Some (js "https://example.com/a");
                               web_title := Some (js "A") |} |};
             {| web := Some {| web_uri := Some (js "https://example.com/b");
                               web_title := Some [] |} |};
             {| web := None |}] |}.

(** A reply without text. *)
Definition silent : GenerateContentResponse :=
  {| result_text := Some []; groundingChunks := None |}.

End MoreExamples.
Import MoreExamples.

(* ================================================================== *)
(** * Proofs *)
(* ================================================================== *)


(* ================================================================== *)
(** * Facts about strings *)
(* ================================================================== *)

Section StringFacts.

Lemma strict_eq_refl (a : jsstring) : strict_eq a a = true.
Proof.
  induction a as [|c a IH]; simpl; [reflexivity|].
  now rewrite N.eqb_refl.
Qed.

Lemma strict_eq_eq (a b : jsstring) : strict_eq a b = true <-> a = b.
Proof.
  split; [|intros ->; apply strict_eq_refl].
  revert b; induction a as [|c a IH]; intros [|d b]; simpl; try discriminate;
    [reflexivity|].
  intros H; apply andb_true_iff in H as [Hc Hab].
  apply N.eqb_eq in Hc; subst d. f_equal; auto.
Qed.

Lemma strict_eq_neq (a b : jsstring) : strict_eq a b = false <-> a <> b.
Proof.
  rewrite <- strict_eq_eq. destruct (strict_eq a b); split; congruence.
Qed.

Lemma starts_with_app (p t : jsstring) : starts_with p (p ++ t) = true.
Proof.
  induction p as [|c p IH]; simpl; [reflexivity|].
  now rewrite N.eqb_refl.
Qed.

Lemma starts_with_inv (p s : jsstring) :
  starts_with p s = true -> s = p ++ skipn (List.length p) s.
Proof.
  revert s; induction p as [|c p IH]; intros s H; simpl in *; [reflexivity|].
  destruct s as [|d s]; [discriminate|].
  apply andb_true_iff in H as [Hc Hp]. apply N.eqb_eq in Hc; subst d.
  simpl. f_equal. auto.
Qed.

(** [indexOf] finds an occurrence, and it is the first one. *)
Lemma indexOf_Some (p s : jsstring) (i : nat) :
  indexOf p s = Some i ->
  starts_with p (skipn i s) = true /\
  i <= List.length s /\
  forall j, j < i -> starts_with p (skipn j s) = false.
Proof.
  revert i; induction s as [|c s IH]; intros i; simpl.
  - destruct (starts_with p []) eqn:E; [|discriminate].
    intros [= <-]. simpl. repeat split; auto; intros j Hj; lia.
  - destruct (starts_with p (c :: s)) eqn:E.
    + intros [= <-]. simpl. repeat split; auto; try lia; intros j Hj; lia.
    + destruct (indexOf p s) as [i'|] eqn:Ei; [|discriminate].
      simpl. intros [= <-]. destruct (IH i' eq_refl) as (H1 & H2 & H3).
      simpl. repeat split; auto; try lia.
      intros [|j] Hj; simpl; [exact E|]. apply H3; lia.
Qed.

Lemma indexOf_None (p s : jsstring) :
  indexOf p s = None -> forall j, starts_with p (skipn j s) = false.
Proof.
  induction s as [|c s IH]; simpl.
  - destruct (starts_with p []) eqn:E; [discriminate|].
    intros _ [|j]; exact E.
  - destruct (starts_with p (c :: s)) eqn:E; [discriminate|].
    destruct (indexOf p s) eqn:Ei; [discriminate|].
    intros _ [|j]; simpl; [exact E|]. now apply IH.
Qed.

Lemma skipn_app_length {A : Type} (l t : list A) :
  skipn (List.length l) (l ++ t) = t.
Proof. induction l; simpl; auto. Qed.

Lemma firstn_app_length {A : Type} (l t : list A) :
  firstn (List.length l) (l ++ t) = l.
Proof. induction l; simpl; congruence. Qed.

(** A string that holds [p] somewhere has an index for it, no later. *)
Lemma indexOf_occurs (p pre t : jsstring) :
  exists i, indexOf p (pre ++ p ++ t) = Some i /\ i <= List.length pre.
Proof.
  destruct (indexOf p (pre ++ p ++ t)) as [i|] eqn:E.
  - exists i; split; [reflexivity|].
    destruct (indexOf_Some _ _ _ E) as (_ & _ & H).
    destruct (Nat.le_gt_cases i (List.length pre)) as [|Hlt]; [assumption|].
    specialize (H _ Hlt). rewrite skipn_app_length, starts_with_app in H.
    discriminate.
  - pose proof (indexOf_None _ _ E (List.length pre)) as H.
    rewrite skipn_app_length, starts_with_app in H. discriminate.
Qed.

Lemma dropWhile_app_stop (cls : code_unit -> bool) (w t : jsstring) :
  forallb cls w = true ->
  match t with c :: _ => cls c = false | [] => True end ->
  dropWhile cls (w ++ t) = t.
Proof.
  intros Hw Ht. induction w as [|c w IH]; simpl in *.
  - destruct t as [|c t]; simpl; [reflexivity|]. now rewrite Ht.
  - apply andb_true_iff in Hw as [Hc Hw]. rewrite Hc. auto.
Qed.

Lemma take_drop_While (cls : code_unit -> bool) (s : jsstring) :
  s = takeWhile cls s ++ dropWhile cls s.
Proof.
  induction s as [|c s IH]; simpl; [reflexivity|].
  destruct (cls c); simpl; congruence.
Qed.

Lemma takeWhile_all (cls : code_unit -> bool) (s : jsstring) :
  forallb cls (takeWhile cls s) = true.
Proof.
  induction s as [|c s IH]; simpl; [reflexivity|].
  destruct (cls c) eqn:E; simpl; [now rewrite E|reflexivity].
Qed.

Lemma dropWhile_head (cls : code_unit -> bool) (s : jsstring) :
  match dropWhile cls s with c :: _ => cls c = false | [] => True end.
Proof.
  induction s as [|c s IH]; simpl; [exact I|].
  destruct (cls c) eqn:E; [exact IH|exact E].
Qed.

Lemma dropWhile_all (cls : code_unit -> bool) (s : jsstring) :
  forallb cls s = true -> dropWhile cls s = [].
Proof.
  induction s as [|c s IH]; simpl; [reflexivity|].
  intros H; apply andb_true_iff in H as [-> H]; auto.
Qed.

Lemma dropWhile_not_all (cls : code_unit -> bool) (s t : jsstring) :
  forallb cls s = false -> dropWhile cls (s ++ t) = dropWhile cls s ++ t.
Proof.
  induction s as [|c s IH]; simpl; [discriminate|].
  destruct (cls c); simpl; auto.
Qed.

(** Stripping at the end, one code unit at a time. *)
Lemma forallb_rev (cls : code_unit -> bool) (s : jsstring) :
  forallb cls (rev s) = forallb cls s.
Proof.
  destruct (forallb cls s) eqn:E.
  - rewrite forallb_forall in *. intros x Hx. apply E. now apply in_rev.
  - destruct (forallb cls (rev s)) eqn:Er; [|reflexivity].
    rewrite <- E. symmetry. rewrite forallb_forall in *.
    intros x Hx. apply Er. now apply -> in_rev.
Qed.

Lemma trimEnd_cons (c : code_unit) (s : jsstring) :
  trimEnd (c :: s) =
  if forallb is_space (c :: s) then [] else c :: trimEnd s.
Proof.
  unfold trimEnd, trimStart. simpl rev.
  destruct (forallb is_space (c :: s)) eqn:E.
  - rewrite dropWhile_all; [reflexivity|].
    change (rev s ++ [c]) with (rev (c :: s)). now rewrite forallb_rev.
  - simpl in E. destruct (forallb is_space s) eqn:Es.
    + rewrite andb_true_r in E.
      rewrite (dropWhile_all is_space (rev s)) by now rewrite forallb_rev.
      rewrite dropWhile_app_stop; simpl; auto.
      now rewrite forallb_rev.
    + rewrite dropWhile_not_all by now rewrite forallb_rev.
      now rewrite rev_app_distr.
Qed.

End StringFacts.

(* ================================================================== *)
(** * Facts about the matchers *)
(* ================================================================== *)

Section MatcherFacts.
Context {R : Type}.
Implicit Types (k : @cont R) (s t p : jsstring).

Lemma lit_app p k t : lit p k (p ++ t) = k t.
Proof.
  induction p as [|c p IH]; simpl; [reflexivity|].
  now rewrite N.eqb_refl.
Qed.

Lemma lit_starts_with p k s :
  lit p k s =
  if starts_with p s then k (skipn (List.length p) s) else None.
Proof.
  revert s; induction p as [|c p IH]; intros s; simpl; [reflexivity|].
  destruct s as [|d s]; [reflexivity|].
  destruct (c =? d)%N; simpl; auto.
Qed.

Lemma lit_sound p k s r :
  lit p k s = Some r -> exists t, s = p ++ t /\ k t = Some r.
Proof.
  rewrite lit_starts_with. destruct (starts_with p s) eqn:E; [|discriminate].
  intros H. exists (skipn (List.length p) s). split; [|exact H].
  now apply starts_with_inv.
Qed.

(** A greedy star whose continuation accepts what is left after the
    longest run stops there. *)
Lemma star_longest cls k s r :
  k (dropWhile cls s) = Some r -> star cls k s = Some r.
Proof.
  induction s as [|c s IH]; simpl; [auto|].
  destruct (cls c); [|auto]. intros H. now rewrite (IH H).
Qed.

(** A greedy star whose continuation fails on the class can only
    stop after the longest run. *)
Lemma star_stop cls k s :
  (forall d t, cls d = true -> k (d :: t) = None) ->
  star cls k s = k (dropWhile cls s).
Proof.
  intros Hk. induction s as [|d s IH]; simpl; [reflexivity|].
  destruct (cls d) eqn:Hd; [|reflexivity].
  rewrite IH. destruct (k (dropWhile cls s)); [reflexivity|]. now apply Hk.
Qed.

Lemma star_lit cls c p k s :
  cls c = false ->
  star cls (lit (c :: p) k) s = lit (c :: p) k (dropWhile cls s).
Proof.
  intros Hc. apply star_stop. intros d t Hd. simpl.
  destruct (c =? d)%N eqn:E; [|reflexivity].
  apply N.eqb_eq in E. congruence.
Qed.

Lemma star_sound cls k s r :
  star cls k s = Some r ->
  exists w t, s = w ++ t /\ forallb cls w = true /\ k t = Some r.
Proof.
  induction s as [|c s IH]; simpl.
  - intros H. now exists [], [].
  - destruct (cls c) eqn:Hc.
    + destruct (star cls k s) as [r'|] eqn:Hs.
      * intros [= ->]. destruct (IH eq_refl) as (w & t & -> & Hw & Hk).
        exists (c :: w), t. simpl. rewrite Hc. auto.
      * intros H. now exists [], (c :: s).
    + intros H. now exists [], (c :: s).
Qed.

Lemma lazy_any_eq (k : jsstring -> @cont R) acc s :
  lazy_any k acc s =
  match k (rev acc) s with
  | Some r => Some r
  | None =>
      match s with
      | c :: s' => lazy_any k (c :: acc) s'
      | [] => None
      end
  end.
Proof. destruct s; reflexivity. Qed.

Lemma lazy_any_sound (k : jsstring -> @cont R) acc s r :
  lazy_any k acc s = Some r ->
  exists g t, s = g ++ t /\ k (rev acc ++ g) t = Some r.
Proof.
  revert acc; induction s as [|c s IH]; intros acc; simpl.
  - destruct (k (rev acc) []) eqn:E; [|discriminate].
    intros [= <-]. exists [], []. split; [reflexivity | now rewrite app_nil_r].
  - destruct (k (rev acc) (c :: s)) eqn:E.
    + intros [= <-]. exists [], (c :: s). split; [reflexivity | now rewrite app_nil_r].
    + intros H. destruct (IH _ H) as (g & t & -> & Hk).
      exists (c :: g), t. split; [reflexivity|].
      simpl in Hk. now rewrite <- app_assoc in Hk.
Qed.

(** A lazy group takes the shortest text after which the continuation
    succeeds. *)
Lemma lazy_any_shortest (k : jsstring -> @cont R) acc g t r :
  (forall j, j < List.length g ->
             k (rev acc ++ firstn j g) (skipn j g ++ t) = None) ->
  k (rev acc ++ g) t = Some r ->
  lazy_any k acc (g ++ t) = Some r.
Proof.
  revert acc; induction g as [|c g IH]; intros acc Hmin Hk.
  - rewrite app_nil_r in Hk. simpl.
    destruct t; simpl; now rewrite Hk.
  - simpl. pose proof (Hmin 0 ltac:(simpl; lia)) as H0.
    simpl in H0. rewrite app_nil_r in H0. rewrite H0.
    apply IH.
    + intros j Hj. specialize (Hmin (S j) ltac:(simpl; lia)).
      simpl in *. now rewrite <- app_assoc.
    + simpl. now rewrite <- app_assoc.
Qed.

Lemma search_sound (m : jsstring -> option R) before s pre r :
  search m before s = Some (pre, r) ->
  exists b t, s = b ++ t /\ pre = rev before ++ b /\ m t = Some r.
Proof.
  revert before; induction s as [|c s IH]; intros before; simpl.
  - destruct (m []) eqn:E; [|discriminate].
    intros [= <- <-]. exists [], []. split; [reflexivity | now rewrite app_nil_r].
  - destruct (m (c :: s)) eqn:E.
    + intros [= <- <-]. exists [], (c :: s). split; [reflexivity | now rewrite app_nil_r].
    + intros H. destruct (IH _ H) as (b & t & -> & -> & Hm).
      exists (c :: b), t. simpl. now rewrite <- app_assoc.
Qed.

(** The search returns the leftmost position at which the matcher
    succeeds. *)
Lemma search_leftmost (m : jsstring -> option R) before b t r :
  (forall j, j < List.length b -> m (skipn j (b ++ t)) = None) ->
  m t = Some r ->
  search m before (b ++ t) = Some (rev before ++ b, r).
Proof.
  revert before; induction b as [|c b IH]; intros before Hmin Hm.
  - rewrite app_nil_r. simpl. destruct t; simpl; now rewrite Hm.
  - pose proof (Hmin 0 ltac:(simpl; lia)) as H0. simpl in H0.
    simpl. rewrite H0.
    rewrite IH; auto.
    + simpl. now rewrite <- app_assoc.
    + intros j Hj. apply (Hmin (S j)). simpl; lia.
Qed.

Lemma search_none (m : jsstring -> option R) before s :
  (forall j, m (skipn j s) = None) -> search m before s = None.
Proof.
  revert before; induction s as [|c s IH]; intros before H;
    pose proof (H 0) as H0; simpl in H0; simpl; rewrite H0.
  - reflexivity.
  - apply IH. intros j. apply (H (S j)).
Qed.
End MatcherFacts.

Section MoreStringFacts.
Lemma dropWhile_app (cls : code_unit -> bool) (s t : jsstring) :
  match t with c :: _ => cls c = false | [] => False end ->
  dropWhile cls (s ++ t) = dropWhile cls s ++ t.
Proof.
  intros Ht. induction s as [|c s IH]; simpl.
  - destruct t as [|c t]; [contradiction|]. simpl. now rewrite Ht.
  - destruct (cls c); auto.
Qed.

(** [dropWhile] leaves a suffix, which starts inside the string unless
    the whole string is in the class. *)
Lemma dropWhile_skipn (cls : code_unit -> bool) (s : jsstring) :
  exists m, dropWhile cls s = skipn m s /\ m <= List.length s /\
            (forallb cls s = false -> m < List.length s).
Proof.
  induction s as [|c s (m & Hm & Hle & Hlt)]; simpl.
  - exists 0. simpl. repeat split; auto. discriminate.
  - destruct (cls c) eqn:Hc; simpl.
    + exists (S m). simpl. repeat split; auto; lia || (intros H; apply Hlt in H; lia).
    + exists 0. simpl. repeat split; auto; lia || (intros; lia).
Qed.

Lemma skipn_app_le {A : Type} (j : nat) (l t : list A) :
  j <= List.length l -> skipn j (l ++ t) = skipn j l ++ t.
Proof.
  intros H. rewrite skipn_app. replace (j - List.length l) with 0 by lia.
  reflexivity.
Qed.
End MoreStringFacts.


(** ** The two expressions of the extractor on a fenced text *)

Section FenceFacts.

Lemma closing_eq g s :
  closing g s = lit CLOSE (fun rest => Some (g, rest)) (trimStart s).
Proof. unfold closing. now apply star_lit. Qed.

Lemma closing_CLOSE g post : closing g (CLOSE ++ post) = Some (g, post).
Proof.
  rewrite closing_eq.
  replace (trimStart (CLOSE ++ post)) with (CLOSE ++ post) by reflexivity.
  now rewrite lit_app.
Qed.

Lemma lazy_closing raw : forall acc post,
  (forall j, j < List.length raw ->
             starts_with CLOSE (skipn j (raw ++ CLOSE ++ post)) = false) ->
  lazy_any closing acc (raw ++ CLOSE ++ post)
  = Some (rev acc ++ trimEnd raw, post).
Proof.
  induction raw as [|c raw IH]; intros acc post Hfirst;
    rewrite lazy_any_eq.
  - change ([] ++ CLOSE ++ post) with (CLOSE ++ post).
    rewrite closing_CLOSE. now rewrite app_nil_r.
  - rewrite trimEnd_cons, closing_eq. unfold trimStart.
    rewrite dropWhile_app by reflexivity.
    destruct (forallb is_space (c :: raw)) eqn:Eall.
    + rewrite dropWhile_all by assumption.
      change ([] ++ CLOSE ++ post) with (CLOSE ++ post).
      rewrite lit_app. now rewrite app_nil_r.
    + destruct (dropWhile_skipn is_space (c :: raw)) as (m & -> & _ & Hm).
      specialize (Hm Eall).
      rewrite <- skipn_app_le by lia.
      rewrite lit_starts_with, (Hfirst m Hm).
      change ((c :: raw) ++ CLOSE ++ post) with (c :: (raw ++ CLOSE ++ post)).
      cbv iota. rewrite IH.
      * simpl. now rewrite <- app_assoc.
      * intros j Hj. apply (Hfirst (S j)). simpl; lia.
Qed.

Lemma re_report_fence raw post :
  indexOf CLOSE (raw ++ CLOSE ++ post) = Some (List.length raw) ->
  re_report (OPEN ++ raw ++ CLOSE ++ post) = Some (trim raw, post).
Proof.
  intros Hclose. apply indexOf_Some in Hclose as (_ & _ & Hfirst).
  unfold re_report. rewrite lit_app. apply star_longest.
  rewrite dropWhile_app by reflexivity.
  change (lazy_any closing [] (trimStart raw ++ CLOSE ++ post)
          = Some (rev [] ++ trimEnd (trimStart raw), post)).
  apply lazy_closing. unfold trimStart.
  destruct (dropWhile_skipn is_space raw) as (m & -> & Hm & _).
  intros j Hj. rewrite length_skipn in Hj.
  rewrite <- skipn_app_le by lia. rewrite skipn_skipn.
  apply Hfirst. lia.
Qed.

Lemma re_block_fence raw post :
  indexOf CLOSE (raw ++ CLOSE ++ post) = Some (List.length raw) ->
  re_block (OPEN ++ raw ++ CLOSE ++ post) = Some post.
Proof.
  intros Hclose. apply indexOf_Some in Hclose as (_ & _ & Hfirst).
  unfold re_block. rewrite lit_app. apply lazy_any_shortest.
  - intros j Hj. rewrite <- skipn_app_le by lia.
    now rewrite lit_starts_with, (Hfirst j Hj).
  - now rewrite lit_app.
Qed.

Lemma search_fence {R : Type} (m : jsstring -> option R)
  text pre raw post r :
  fenced text pre raw post ->
  (forall s, starts_with OPEN s = false -> m s = None) ->
  m (OPEN ++ raw ++ CLOSE ++ post) = Some r ->
  search m [] text = Some (pre, r).
Proof.
  intros (-> & Hopen & _) Hm Hr.
  apply indexOf_Some in Hopen as (_ & _ & Hfirst).
  apply (search_leftmost m []); [|exact Hr].
  intros j Hj. apply Hm, Hfirst, Hj.
Qed.

Lemma re_report_open s : starts_with OPEN s = false -> re_report s = None.
Proof. intros H. unfold re_report. now rewrite lit_starts_with, H. Qed.

Lemma re_block_open s : starts_with OPEN s = false -> re_block s = None.
Proof. intros H. unfold re_block. now rewrite lit_starts_with, H. Qed.

Lemma jsonMatch_fence text pre raw post :
  fenced text pre raw post -> jsonMatch text = Some (trim raw).
Proof.
  intros H. unfold jsonMatch.
  rewrite (search_fence re_report _ _ _ _ _ H re_report_open
             (re_report_fence _ _ (proj2 (proj2 H)))).
  reflexivity.
Qed.

Lemma replace_block_fence text pre raw post :
  fenced text pre raw post -> replace_block text = pre ++ post.
Proof.
  intros H. unfold replace_block.
  rewrite (search_fence re_block _ _ _ _ _ H re_block_open
             (re_block_fence _ _ (proj2 (proj2 H)))).
  reflexivity.
Qed.

(** Whatever the first expression matches is a fence. *)
Lemma jsonMatch_sound text g :
  jsonMatch text = Some g ->
  exists pre raw post, text = pre ++ OPEN ++ raw ++ CLOSE ++ post.
Proof.
  unfold jsonMatch.
  destruct (search re_report [] text) as [[pre [g' rest]]|] eqn:E;
    [|discriminate].
  intros _. apply search_sound in E as (b & t & -> & _ & E).
  apply lit_sound in E as (t1 & -> & E).
  apply star_sound in E as (w1 & t2 & -> & _ & E).
  apply lazy_any_sound in E as (g1 & t3 & -> & E).
  apply star_sound in E as (w2 & t4 & -> & _ & E).
  apply lit_sound in E as (t5 & -> & _).
  exists b, (w1 ++ g1 ++ w2), t5. now rewrite <- !app_assoc.
Qed.
End FenceFacts.

Section FenceExists.
Lemma indexOf_split (p s : jsstring) (i : nat) :
  indexOf p s = Some i ->
  s = firstn i s ++ p ++ skipn (i + List.length p) s /\
  List.length (firstn i s) = i.
Proof.
  intros H. apply indexOf_Some in H as (Hat & Hle & _).
  apply starts_with_inv in Hat. rewrite skipn_skipn in Hat.
  split; [|now apply firstn_length_le].
  rewrite <- (firstn_skipn i s) at 1. f_equal.
  now rewrite Nat.add_comm in Hat.
Qed.

(** Every text that holds an opening marker and a closing marker after
    it has a first fence. *)
Lemma fenced_exists (text pre raw post : jsstring) :
  text = pre ++ OPEN ++ raw ++ CLOSE ++ post ->
  exists pre' raw' post', fenced text pre' raw' post'.
Proof.
  intros Htext.
  destruct (indexOf_occurs OPEN pre (raw ++ CLOSE ++ post)) as (i & Hi & Hle).
  rewrite <- Htext in Hi.
  destruct (indexOf_split _ _ _ Hi) as (Hsplit & Hlen).
  set (rest := skipn (i + List.length OPEN) text) in *.
  assert (Hrest : exists mid, rest = mid ++ CLOSE ++ post).
  { exists (skipn (i + List.length OPEN) (pre ++ OPEN ++ raw)).
    subst rest. rewrite Htext.
    replace (pre ++ OPEN ++ raw ++ CLOSE ++ post)
      with ((pre ++ OPEN ++ raw) ++ CLOSE ++ post)
      by (now rewrite <- !app_assoc).
    apply skipn_app_le. rewrite !length_app. lia. }
  destruct Hrest as (mid & Hmid).
  destruct (indexOf_occurs CLOSE mid post) as (j & Hj & _).
  rewrite <- Hmid in Hj.
  destruct (indexOf_split _ _ _ Hj) as (Hsplit' & Hlen').
  exists (firstn i text), (firstn j rest), (skipn (j + List.length CLOSE) rest).
  unfold fenced. rewrite <- Hsplit', Hlen, Hlen'. auto.
Qed.
End FenceExists.

(** ** The report extractor: claims C1, C2 and C9 *)

Section ExtractorClaims.
Variable JSON_parse : jsstring -> option json.
(** [JSON.parse] throws a SyntaxError on the empty string. *)
Hypothesis JSON_parse_empty : JSON_parse [] = None.


(** C2.  A response that holds a report fence whose inner content is
    not valid JSON: the extractor returns no [reportData] and the
    response itself, unchanged, as [cleanText].  (The extractor is a
    total function: the SyntaxError of [JSON.parse] is caught.) *)
Theorem extract_malformed_report (text pre raw post : jsstring) :
  fenced text pre raw post ->
  JSON_parse (trim raw) = None ->
  extractReport JSON_parse text = (text, None).
Proof.
  intros Hf Hp. unfold extractReport.
  rewrite (jsonMatch_fence _ _ _ _ Hf), Hp.
  now destruct (truthy (trim raw)).
Qed.

(** C9.  A response that holds no report fence, that is no opening
    marker with a closing marker after it: the extractor returns the
    response unchanged and no [reportData]. *)
Theorem extract_no_report (text : jsstring) :
  (forall pre raw post, text <> pre ++ OPEN ++ raw ++ CLOSE ++ post) ->
  extractReport JSON_parse text = (text, None).
Proof.
  intros Hno. unfold extractReport.
  destruct (jsonMatch text) as [g|] eqn:E; [|reflexivity].
  apply jsonMatch_sound in E as (pre & raw & post & E).
  now apply Hno in E.
Qed.
End ExtractorClaims.

Lemma no_fence_without_OPEN (text : jsstring) :
  indexOf OPEN text = None ->
  forall pre raw post, text <> pre ++ OPEN ++ raw ++ CLOSE ++ post.
Proof.
  intros Hnone pre raw post ->.
  destruct (indexOf_occurs OPEN pre (raw ++ CLOSE ++ post)) as (i & Hi & _).
  congruence.
Qed.



Lemma extract_malformed_report_witness :
  fenced broken_reply report_pre broken_raw report_post /\
  JsonText.read (trim broken_raw) = None /\
  extractReport JsonText.read broken_reply = (broken_reply, None).
Proof.
  split; [repeat split|]. split; [reflexivity|].
  exact (extract_malformed_report JsonText.read
           broken_reply report_pre broken_raw report_post
           (conj eq_refl (conj eq_refl eq_refl)) eq_refl).
Defined.

Lemma extract_no_report_witness :
  indexOf OPEN plain_reply = None /\
  extractReport JsonText.read plain_reply = (plain_reply, None).
Proof.
  split; [reflexivity|].
  exact (extract_no_report JsonText.read plain_reply
           (no_fence_without_OPEN plain_reply eq_refl)).
Defined.

(** ** Arrays and the session store *)

Section ArrayFacts.
Context {A : Type}.
Implicit Types (p : A -> bool) (l : list A).

Lemma findIndex_range p l :
  (-1 <= Array.findIndex p l < Z.of_nat (List.length l))%Z.
Proof.
  induction l as [|x l IH]; simpl; [lia|].
  destruct (p x); [lia|].
  destruct (Array.findIndex p l <? 0)%Z eqn:E; lia.
Qed.

(** [findIndex] followed by an assignment or a [push], as one pass. *)
Lemma findIndex_assign p l (y : A) :
  (if (0 <=? Array.findIndex p l)%Z
   then Array.assign l (Z.to_nat (Array.findIndex p l)) y
   else l ++ [y])
  = (fix go l := match l with
                 | [] => [y]
                 | x :: l' => if p x then y :: l' else x :: go l'
                 end) l.
Proof.
  induction l as [|x l IH]; simpl; [reflexivity|].
  destruct (p x); [reflexivity|].
  pose proof (findIndex_range p l) as Hr.
  destruct (Array.findIndex p l <? 0)%Z eqn:E.
  - apply Z.ltb_lt in E. simpl. f_equal. rewrite <- IH.
    destruct (0 <=? Array.findIndex p l)%Z eqn:E'; [|reflexivity].
    apply Z.leb_le in E'. lia.
  - apply Z.ltb_ge in E. rewrite <- IH.
    replace (0 <=? Array.findIndex p l + 1)%Z with true
      by (symmetry; apply Z.leb_le; lia).
    replace (0 <=? Array.findIndex p l)%Z with true
      by (symmetry; apply Z.leb_le; lia).
    rewrite Z2Nat.inj_add by lia. rewrite Nat.add_1_r. reflexivity.
Qed.

Lemma insert_perm cmp (x : A) l : Permutation (Array.insert cmp x l) (x :: l).
Proof.
  induction l as [|y l IH]; simpl; [reflexivity|].
  destruct (cmp x y <=? 0)%Z; [reflexivity|].
  rewrite IH. apply perm_swap.
Qed.

Lemma sort_perm cmp l : Permutation (Array.sort cmp l) l.
Proof.
  induction l as [|x l IH]; simpl; [reflexivity|].
  rewrite insert_perm. now constructor.
Qed.
End ArrayFacts.

Section SortFacts.
Implicit Types (s x y : ChatSession.t) (l : list ChatSession.t).

Lemma newest_first_le x y :
  (newest_first x y <=? 0)%Z = true <-> newer_or_same x y.
Proof. unfold newest_first, newer_or_same. rewrite Z.leb_le. lia. Qed.

Lemma insert_sorted x l :
  StronglySorted newer_or_same l ->
  StronglySorted newer_or_same (Array.insert newest_first x l).
Proof.
  induction 1 as [|y l Hl IH Hy]; simpl.
  - repeat constructor.
  - destruct (newest_first x y <=? 0)%Z eqn:E.
    + apply newest_first_le in E. constructor; [now constructor|].
      constructor; [assumption|].
      rewrite Forall_forall in *. intros z Hz. specialize (Hy z Hz).
      unfold newer_or_same in *. lia.
    + constructor; [assumption|].
      assert (Hyx : newer_or_same y x).
      { unfold newer_or_same. unfold newest_first in E.
        apply Z.leb_gt in E. lia. }
      rewrite Forall_forall in *. intros z Hz.
      apply (Permutation_in _ (insert_perm newest_first x l)) in Hz.
      destruct Hz as [<-|Hz]; auto.
Qed.

Lemma sort_sorted l : StronglySorted newer_or_same (Array.sort newest_first l).
Proof.
  induction l as [|x l IH]; simpl; [constructor|]. now apply insert_sorted.
Qed.

(** The sort is stable: it commutes with every filter. *)
Lemma insert_filter (P : ChatSession.t -> bool) x l :
  StronglySorted newer_or_same l ->
  filter P (Array.insert newest_first x l)
  = if P x then Array.insert newest_first x (filter P l) else filter P l.
Proof.
  induction 1 as [|y l Hl IH Hy]; simpl.
  - now destruct (P x).
  - destruct (newest_first x y <=? 0)%Z eqn:E; simpl.
    + destruct (P x) eqn:Px; [|reflexivity].
      destruct (P y) eqn:Py; simpl; [now rewrite E|].
      apply newest_first_le in E.
      assert (Hx : Forall (newer_or_same x) (filter P l)).
      { rewrite Forall_forall in *. intros z Hz.
        apply filter_In in Hz as [Hz _]. specialize (Hy z Hz).
        unfold newer_or_same in *. lia. }
      destruct (filter P l) as [|z l']; [reflexivity|].
      simpl. inversion Hx as [|? ? Hz _]; subst.
      apply newest_first_le in Hz. now rewrite Hz.
    + rewrite IH. destruct (P y) eqn:Py; destruct (P x) eqn:Px; simpl;
        try rewrite E; reflexivity.
Qed.

Lemma sort_filter (P : ChatSession.t -> bool) l :
  Array.sort newest_first (filter P l)
  = filter P (Array.sort newest_first l).
Proof.
  induction l as [|x l IH]; simpl; [reflexivity|].
  rewrite insert_filter by apply sort_sorted.
  destruct (P x); simpl; now rewrite IH.
Qed.

Lemma insert_head x l :
  Forall (newer_or_same x) l -> Array.insert newest_first x l = x :: l.
Proof.
  intros H. destruct l as [|y l]; [reflexivity|]. simpl.
  inversion H as [|? ? Hy _]; subst. apply newest_first_le in Hy.
  now rewrite Hy.
Qed.

(** A list that is already newest-first is left as it is. *)
Lemma sort_sorted_id l :
  StronglySorted newer_or_same l -> Array.sort newest_first l = l.
Proof.
  induction 1 as [|x l Hl IH Hx]; simpl; [reflexivity|].
  rewrite IH. now apply insert_head.
Qed.
End SortFacts.

Section StorageFacts.
Implicit Types (s session : ChatSession.t) (ls : localStorage).

Lemma getChatSessions_readable userId ls :
  readable ls ->
  getChatSessions userId ls
  = Ok (Array.sort newest_first (filter (owned_by userId) (stored_sessions ls))).
Proof.
  intros H. destruct ls as [[| |l]|]; try reflexivity. now elim H.
Qed.

Lemma saveChatSession_readable session ls :
  readable ls ->
  saveChatSession session ls
  = Ok (Some (Stringified (upsert session (stored_sessions ls)))).
Proof.
  intros H. destruct ls as [[| |l]|]; try reflexivity; [now elim H|].
  unfold saveChatSession. simpl. unfold JSON_stringify. do 3 f_equal.
  rewrite findIndex_assign. induction l as [|x l IH]; simpl; [reflexivity|].
  unfold has_id at 1. destruct (strict_eq _ _); [reflexivity|].
  now rewrite IH.
Qed.

Lemma deleteChatSession_readable id ls :
  readable ls ->
  exists ls', deleteChatSession id ls = Ok ls' /\ readable ls' /\
    stored_sessions ls'
    = filter (fun s => negb (has_id id s)) (stored_sessions ls).
Proof.
  intros H. destruct ls as [[| |l]|]; simpl.
  - exists (Some Blank). now repeat split.
  - now elim H.
  - eexists. repeat split. discriminate.
  - exists None. now repeat split.
Qed.

Lemma upsert_In session l : In session (upsert session l).
Proof.
  induction l as [|x l IH]; simpl; [now left|].
  destruct (has_id _ x); simpl; auto.
Qed.

Lemma upsert_In_inv session l s :
  In s (upsert session l) -> s = session \/ In s l.
Proof.
  induction l as [|x l IH]; simpl; [intuition congruence|].
  destruct (has_id _ x); simpl; intuition congruence.
Qed.

Lemma upsert_other session l s :
  In s l -> has_id (ChatSession.id session) s = false ->
  In s (upsert session l).
Proof.
  induction l as [|x l IH]; simpl; [tauto|].
  intros [->|Hin] Hid.
  - rewrite Hid. now left.
  - destruct (has_id _ x); simpl; auto.
Qed.

Lemma has_id_self session : has_id (ChatSession.id session) session = true.
Proof. apply strict_eq_refl. Qed.

(** Saving again what was just saved changes nothing. *)
Lemma upsert_idem session l :
  upsert session (upsert session l) = upsert session l.
Proof.
  induction l as [|x l IH]; simpl.
  - now rewrite has_id_self.
  - destruct (has_id _ x) eqn:E; simpl.
    + now rewrite has_id_self.
    + now rewrite E, IH.
Qed.

Lemma upsert_matches session l :
  List.length (filter (has_id (ChatSession.id session)) l) <= 1 ->
  filter (has_id (ChatSession.id session)) (upsert session l) = [session].
Proof.
  induction l as [|x l IH]; simpl.
  - now rewrite has_id_self.
  - destruct (has_id _ x) eqn:E; simpl.
    + rewrite has_id_self. intros H.
      destruct (filter _ l); [reflexivity|simpl in H; lia].
    + rewrite E. exact IH.
Qed.
End StorageFacts.

(** ** The stores that the service writes *)

Section WrittenStores.
Implicit Types (s session : ChatSession.t) (l : list ChatSession.t).

Lemma upsert_ids_unique session l :
  NoDup (map ChatSession.id l) ->
  NoDup (map ChatSession.id (upsert session l)).
Proof.
  induction l as [|x l IH]; simpl; intros Hl.
  - repeat constructor. intros [].
  - inversion Hl as [|? ? Hx Hl']; subst.
    destruct (has_id (ChatSession.id session) x) eqn:E; simpl.
    + apply strict_eq_eq in E. rewrite <- E. now constructor.
    + constructor; [|auto]. intros Hin. apply in_map_iff in Hin as (y & Hy & Hin).
      apply upsert_In_inv in Hin as [->|Hin].
      * apply strict_eq_neq in E. congruence.
      * apply Hx. rewrite <- Hy. now apply in_map.
Qed.

Lemma filter_ids_unique (p : ChatSession.t -> bool) l :
  NoDup (map ChatSession.id l) ->
  NoDup (map ChatSession.id (filter p l)).
Proof.
  induction l as [|x l IH]; simpl; intros Hl; [constructor|].
  inversion Hl as [|? ? Hx Hl']; subst.
  destruct (p x); simpl; [|auto]. constructor; [|auto].
  intros Hin. apply Hx. apply in_map_iff in Hin as (y & Hy & Hin).
  apply filter_In in Hin as [Hin _]. rewrite <- Hy. now apply in_map.
Qed.

Lemma unique_id_once id l :
  NoDup (map ChatSession.id l) -> List.length (filter (has_id id) l) <= 1.
Proof.
  induction l as [|x l IH]; simpl; intros Hl; [lia|].
  inversion Hl as [|? ? Hx Hl']; subst.
  destruct (has_id id x) eqn:E; simpl; [|auto].
  apply strict_eq_eq in E.
  destruct (filter (has_id id) l) as [|y l'] eqn:Ef; [simpl; lia|].
  exfalso. apply Hx.
  assert (Hy : In y (filter (has_id id) l)) by (rewrite Ef; now left).
  apply filter_In in Hy as [Hy Hid]. apply strict_eq_eq in Hid.
  rewrite E, <- Hid. now apply in_map.
Qed.

(** What the service has written can be read, and holds each id at
    most once. *)
Lemma written_store ls :
  written ls ->
  readable ls /\ NoDup (map ChatSession.id (stored_sessions ls)).
Proof.
  induction 1 as [|session ls ls' _ [Hr Hu] Hsave|id ls ls' _ [Hr Hu] Hdel].
  - split; [discriminate | constructor].
  - rewrite (saveChatSession_readable session ls Hr) in Hsave.
    injection Hsave as <-. split; [discriminate|].
    now apply upsert_ids_unique.
  - destruct (deleteChatSession_readable id ls Hr) as (ls0 & E & Hr' & Hs).
    rewrite E in Hdel. injection Hdel as <-. split; [assumption|].
    rewrite Hs. now apply filter_ids_unique.
Qed.

Lemma written_store_once ls id :
  written ls ->
  readable ls /\ List.length (filter (has_id id) (stored_sessions ls)) <= 1.
Proof.
  intros H. destruct (written_store ls H) as [Hr Hu].
  split; [assumption | now apply unique_id_once].
Qed.
End WrittenStores.

(** ** The session store: claims C3, C6 and C7 *)

(** C3, amended.  [getChatSessions] returns the empty sequence for an
    empty store (nothing stored, or the empty string); for a stored
    collection that [JSON.parse] reads it returns exactly the sessions
    whose [userId] is the argument, ordered by [lastModified]
    descending; on a stored text that [JSON.parse] rejects it throws
    (the exception is not caught). *)
Theorem getChatSessions_spec (userId : jsstring) :
  getChatSessions userId None = Ok [] /\
  getChatSessions userId (Some Blank) = Ok [] /\
  getChatSessions userId (Some Garbled) = Throw /\
  forall allSessions, exists listed,
    getChatSessions userId (Some (Stringified allSessions)) = Ok listed /\
    Permutation listed (filter (owned_by userId) allSessions) /\
    StronglySorted newer_or_same listed.
Proof.
  repeat split. intros allSessions. eexists. split; [reflexivity|].
  split; [apply sort_perm | apply sort_sorted].
Qed.

(** C3 as stated fails: on a corrupt store the call does not return the
    empty sequence. *)
Lemma getChatSessions_corrupt_throws :
  getChatSessions demo corrupt <> Ok [].
Proof. discriminate. Qed.

(** C6, amended.  For every session [S] and every store that is empty
    or holds a collection that [JSON.parse] reads, [saveChatSession S]
    followed by [getChatSessions S.userId] returns a sequence that
    contains [S], is ordered by [lastModified] descending, and holds
    besides [S] only stored sessions of that user, among them every one
    with another id. *)
Theorem save_then_list_spec (session : ChatSession.t) (ls : localStorage) :
  readable ls ->
  exists listed,
    save_then_list session ls = Ok listed /\
    In session listed /\
    StronglySorted newer_or_same listed /\
    (forall s, In s listed ->
       s = session \/
       (In s (stored_sessions ls) /\
        owned_by (ChatSession.userId session) s = true)) /\
    (forall s, In s (stored_sessions ls) ->
       owned_by (ChatSession.userId session) s = true ->
       has_id (ChatSession.id session) s = false ->
       In s listed).
Proof.
  intros Hr. unfold save_then_list.
  rewrite (saveChatSession_readable session ls Hr).
  rewrite getChatSessions_readable by discriminate. simpl stored_sessions.
  eexists. split; [reflexivity|].
  set (mine := filter _ _).
  assert (Hperm : Permutation (Array.sort newest_first mine) mine)
    by apply sort_perm.
  repeat split.
  - apply (Permutation_in _ (Permutation_sym Hperm)).
    apply filter_In. split; [apply upsert_In | apply strict_eq_refl].
  - apply sort_sorted.
  - intros s Hs. apply (Permutation_in _ Hperm) in Hs.
    apply filter_In in Hs as [Hs Ho].
    apply upsert_In_inv in Hs as [->|Hs]; auto.
  - intros s Hin Ho Hid. apply (Permutation_in _ (Permutation_sym Hperm)).
    apply filter_In. split; [|assumption]. now apply upsert_other.
Qed.

Lemma save_then_list_witness :
  readable store /\
  exists listed,
    save_then_list S2' store = Ok listed /\
    In S2' listed /\
    StronglySorted newer_or_same listed /\
    (forall s, In s listed ->
       s = S2' \/
       (In s (stored_sessions store) /\
        owned_by (ChatSession.userId S2') s = true)) /\
    (forall s, In s (stored_sessions store) ->
       owned_by (ChatSession.userId S2') s = true ->
       has_id (ChatSession.id S2') s = false ->
       In s listed).
Proof.
  assert (H : readable store) by discriminate.
  split; [exact H | exact (save_then_list_spec S2' store H)].
Defined.

(** C6 as stated fails: on a corrupt store [saveChatSession] throws, and
    nothing is listed. *)
Lemma save_then_list_corrupt_throws :
  save_then_list S1 corrupt = Throw.
Proof. reflexivity. Qed.

(** C7, amended.  For every session [S] and every store that is empty
    or holds a readable collection with at most one record of the id of
    [S], saving [S] twice leaves the store as saving it once does, with
    exactly one record of that id, which is [S]. *)
Theorem save_twice_spec (session : ChatSession.t) (ls : localStorage) :
  readable ls ->
  List.length (filter (has_id (ChatSession.id session)) (stored_sessions ls)) <= 1 ->
  exists ls',
    saveChatSession session ls = Ok ls' /\
    save_twice session ls = Ok ls' /\
    filter (has_id (ChatSession.id session)) (stored_sessions ls') = [session].
Proof.
  intros Hr Hone. unfold save_twice.
  rewrite (saveChatSession_readable session ls Hr).
  eexists. split; [reflexivity|].
  rewrite saveChatSession_readable by discriminate. simpl stored_sessions.
  rewrite upsert_idem. split; [reflexivity|]. now apply upsert_matches.
Qed.

Lemma save_twice_witness :
  exists ls',
    saveChatSession S2' store = Ok ls' /\
    save_twice S2' store = Ok ls' /\
    filter (has_id (ChatSession.id S2')) (stored_sessions ls') = [S2'].
Proof.
  apply (save_twice_spec S2' store); [discriminate | simpl; lia].
Defined.

(** C7 as stated fails: on a corrupt store [saveChatSession] throws, and
    in a store that holds two records of the id of [S] the second one
    stays. *)
Lemma save_twice_counterexample :
  save_twice S2' corrupt = Throw /\
  exists ls',
    save_twice S2' store_dup = Ok ls' /\
    filter (has_id (ChatSession.id S2')) (stored_sessions ls') = [S2'; S2dup].
Proof.
  split; [reflexivity|]. eexists. split; reflexivity.
Qed.


(** ** The controller *)

Section AppFacts.
Implicit Types (a : State) (s current : ChatSession.t)
  (l : list ChatSession.t) (id : jsstring).

Lemma find_has_id id l s :
  Array.find (has_id id) l = Some s -> ChatSession.id s = id /\ In s l.
Proof.
  induction l as [|x l IH]; simpl; [discriminate|].
  destruct (has_id id x) eqn:E.
  - intros [= <-]. split; [now apply strict_eq_eq | now left].
  - intros H. destruct (IH H). auto.
Qed.

Lemma find_replaceSession id l s new :
  Array.find (has_id id) l = Some s ->
  ChatSession.id new = id ->
  Array.find (has_id id) (replaceSession id new l) = Some new.
Proof.
  intros Hfind Hnew.
  assert (Hid : has_id id new = true) by (subst id; apply strict_eq_refl).
  induction l as [|x l IH]; simpl in *; [discriminate|].
  unfold has_id at 1 in Hfind. unfold has_id at 1.
  destruct (strict_eq (ChatSession.id x) id) eqn:E.
  - fold (has_id id new). now rewrite Hid.
  - fold (has_id id x). unfold has_id at 1. rewrite E. auto.
Qed.

Lemma replaceSession_twice id l new1 new2 :
  ChatSession.id new1 = id ->
  replaceSession id new2 (replaceSession id new1 l) = replaceSession id new2 l.
Proof.
  intros H. unfold replaceSession. rewrite map_map. apply map_ext.
  intros x. destruct (strict_eq (ChatSession.id x) id) eqn:E.
  - rewrite H. now rewrite strict_eq_refl.
  - now rewrite E.
Qed.

Lemma currentSession_id a current :
  currentSession a = Some current ->
  currentSessionId a = Some (ChatSession.id current).
Proof.
  unfold currentSession. destruct (currentSessionId a) as [id|]; [|discriminate].
  intros H. apply (find_has_id id) in H as [-> _]. reflexivity.
Qed.

Lemma find_upsert s l :
  Array.find (has_id (ChatSession.id s)) (upsert s l) = Some s.
Proof.
  induction l as [|x l IH]; simpl.
  - now rewrite has_id_self.
  - destruct (has_id (ChatSession.id s) x) eqn:E; simpl.
    + now rewrite has_id_self.
    + now rewrite E.
Qed.

(** [handleSendMessage] up to its [await], when the guard lets the
    input through and the store can be read. *)
Lemma handleSendMessage_send_ok (now : Ticks) a current :
  sendable a current ->
  readable (storage a) ->
  let updatedSession := updatedSession_of now a current in
  let sessionWithLoading :=
    withMessages updatedSession
      (ChatSession.messages updatedSession
         ++ [loadingMessage (js "loading-" ++ toString (t3 now))])
      (ChatSession.title updatedSession)
      (ChatSession.lastModified updatedSession) in
  handleSendMessage_send now a
  = Ok ({| user := user a;
           sessions :=
             replaceSession (ChatSession.id current) sessionWithLoading
               (sessions a);
           currentSessionId := currentSessionId a;
           inputText := [];
           isProcessing := true;
           sidebarOpen := sidebarOpen a;
           storage :=
             Some (Stringified
                     (upsert updatedSession (stored_sessions (storage a)))) |},
        Some {| ex_sessionId := ChatSession.id current;
                ex_userMessage := userMessage_of now a;
                ex_updatedSession := updatedSession |}).
Proof.
  intros (Hcur & Huser & Htext & Hproc) Hread. intros.
  unfold handleSendMessage_send. rewrite Hcur.
  destruct (user a) as [u|] eqn:Eu; [|congruence].
  rewrite Htext, Hproc. cbn [negb orb].
  unfold stored. cbn [storage setSessions].
  rewrite (saveChatSession_readable _ _ Hread).
  unfold setSessions, setIsProcessing, setInputText, setStorage.
  cbn [user sessions currentSessionId inputText isProcessing sidebarOpen
       storage].
  rewrite replaceSession_twice by reflexivity.
  rewrite Eu. reflexivity.
Qed.
End AppFacts.

Section ControllerFacts.
Lemma currentSession_replaced (a a' : State) (current new : ChatSession.t) :
  currentSession a = Some current ->
  currentSessionId a' = currentSessionId a ->
  sessions a' = replaceSession (ChatSession.id current) new (sessions a) ->
  ChatSession.id new = ChatSession.id current ->
  currentSession a' = Some new.
Proof.
  intros Hcur Hid Hs Hnew. unfold currentSession in *. rewrite Hid, Hs.
  destruct (currentSessionId a) as [id|]; [|discriminate].
  destruct (find_has_id id _ _ Hcur) as [E _]. rewrite E in *.
  exact (find_replaceSession id (sessions a) current new Hcur Hnew).
Qed.

Lemma filter_filter_comm {A : Type} (P Q : A -> bool) (l : list A) :
  filter P (filter Q l) = filter Q (filter P l).
Proof.
  induction l as [|x l IH]; simpl; [reflexivity|].
  destruct (P x) eqn:Px; destruct (Q x) eqn:Qx; simpl;
    rewrite ?Px, ?Qx, IH; reflexivity.
Qed.

(** Deleting from the store removes the session from what is listed. *)
Lemma getChatSessions_after_delete (userId id : jsstring)
  (ls : localStorage) (listed : list ChatSession.t) :
  getChatSessions userId ls = Ok listed ->
  exists ls',
    deleteChatSession id ls = Ok ls' /\ readable ls' /\
    getChatSessions userId ls'
    = Ok (filter (fun s => negb (has_id id s)) listed) /\
    filter (owned_by userId) (stored_sessions ls')
    = filter (fun s => negb (has_id id s))
        (filter (owned_by userId) (stored_sessions ls)).
Proof.
  destruct ls as [[| |l]|]; simpl; try discriminate.
  - intros [= <-]. exists (Some Blank). now repeat split.
  - intros [= <-]. eexists. split; [reflexivity|].
    split; [discriminate|]. simpl. split.
    + f_equal. fold (owned_by userId). fold (has_id id).
      rewrite <- sort_filter. f_equal. apply filter_filter_comm.
    + apply filter_filter_comm.
  - intros [= <-]. exists None. now repeat split.
Qed.

Lemma upsert_only_owned (P : ChatSession.t -> bool)
  (s : ChatSession.t) (l : list ChatSession.t) :
  filter P l = [] -> P s = true -> filter P (upsert s l) = [s].
Proof.
  intros Hl Hs. induction l as [|x l IH]; simpl in *; [now rewrite Hs|].
  destruct (P x) eqn:Px; [discriminate|].
  destruct (has_id (ChatSession.id s) x); simpl.
  - now rewrite Hs, Hl.
  - rewrite Px. auto.
Qed.
End ControllerFacts.

Section ControllerClaims.

(** C4, amended.  When the guard of [handleSendMessage] lets a user
    message through, the session shown and the session stored get the
    same title: for a session with at most one prior message, the
    message text if it has at most 30 code units, else its first 30
    code units followed by "..."; for the question about NVDA that is
    "Should I buy NVDA? What about ..." (the thirtieth code unit is
    the space after "about"); for a session with two or more prior
    messages, the title it had. *)
Theorem title_derivation (now : Ticks) (a : State) (current : ChatSession.t) :
  sendable a current ->
  readable (storage a) ->
  exists a' ex shown,
    handleSendMessage_send now a = Ok (a', Some ex) /\
    currentSession a' = Some shown /\
    Array.find (has_id (ChatSession.id current))
      (stored_sessions (storage a')) = Some (ex_updatedSession ex) /\
    ChatSession.title shown = ChatSession.title (ex_updatedSession ex) /\
    let title' := ChatSession.title (ex_updatedSession ex) in
    (List.length (ChatSession.messages current) <= 1 ->
     List.length (inputText a) <= 30 -> title' = inputText a) /\
    (List.length (ChatSession.messages current) <= 1 ->
     30 < List.length (inputText a) ->
     title' = firstn 30 (inputText a) ++ js "...") /\
    (List.length (ChatSession.messages current) <= 1 ->
     inputText a = NVDA_QUESTION ->
     title' = js "Should I buy NVDA? What about ...") /\
    (2 <= List.length (ChatSession.messages current) ->
     title' = ChatSession.title current).
Proof.
  intros Hs Hr. pose proof (handleSendMessage_send_ok now a current Hs Hr) as E.
  cbv zeta in E. do 3 eexists. split; [exact E|].
  destruct Hs as (Hcur & _).
  split; [|split; [|split]].
  - eapply (currentSession_replaced a _ current); [exact Hcur | reflexivity..].
  - cbn [storage stored_sessions ex_updatedSession].
    apply (find_upsert (updatedSession_of now a current)).
  - reflexivity.
  - cbn [ex_updatedSession updatedSession_of withMessages ChatSession.title].
    unfold updatedTitle, substring0.
    repeat split; intros H1; try intros H2.
    + apply Nat.leb_le in H1. rewrite H1.
      destruct (30 <? List.length (inputText a)) eqn:E'; [|reflexivity].
      apply Nat.ltb_lt in E'. lia.
    + apply Nat.leb_le in H1. apply Nat.ltb_lt in H2. now rewrite H1, H2.
    + apply Nat.leb_le in H1. now rewrite H1, H2.
    + destruct (List.length (ChatSession.messages current) <=? 1) eqn:E';
        [|reflexivity].
      apply Nat.leb_le in E'. lia.
Qed.


Variable JSON_parse : jsstring -> option json.
Variable gemini : jsstring -> GeminiService.Channel.


End ControllerClaims.

Lemma title_derivation_witness :
  exists a' ex shown,
    handleSendMessage_send clock asking = Ok (a', Some ex) /\
    currentSession a' = Some shown /\
    ChatSession.title shown = js "Should I buy NVDA? What about ...".
Proof.
  assert (Hs : sendable asking fresh)
    by (repeat split; discriminate || reflexivity).
  assert (Hr : readable (storage asking)) by discriminate.
  destruct (title_derivation clock asking fresh Hs Hr)
    as (a' & ex & shown & Hsend & Hshown & _ & Htitle & _ & _ & Hnvda & _).
  exists a', ex, shown. split; [exact Hsend|]. split; [exact Hshown|].
  rewrite Htitle. apply Hnvda; [simpl; lia | reflexivity].
Defined.

(** C4 as stated fails: the title for the question about NVDA is not
    "Should I buy NVDA? What about...". *)
Lemma title_example_counterexample :
  exists a' ex,
    handleSendMessage_send clock asking = Ok (a', Some ex) /\
    List.length (ChatSession.messages fresh) <= 1 /\
    ChatSession.title (ex_updatedSession ex)
    <> js "Should I buy NVDA? What about...".
Proof.
  do 2 eexists. split; [reflexivity|]. split; [simpl; lia|].
  apply strict_eq_neq. reflexivity.
Qed.




(** ** Loading placeholders, and an exchange that succeeds *)

Section Placeholders.
Variable JSON_parse : jsstring -> option json.
Variable gemini : jsstring -> Channel.

Lemma replaceSession_In id new l s :
  In s (replaceSession id new l) ->
  s = new \/ (In s l /\ has_id id s = false).
Proof.
  unfold replaceSession. intros H. apply in_map_iff in H as (y & Hy & Hin).
  destruct (strict_eq (ChatSession.id y) id) eqn:E; subst; auto.
Qed.

Lemma otherSessions_replaced id new l s :
  ChatSession.id new = id ->
  In s (otherSessions id (replaceSession id new l)) -> In s l.
Proof.
  intros Hnew H. apply filter_In in H as [H Hid].
  apply replaceSession_In in H as [->|[H _]]; [|assumption].
  rewrite Hnew, strict_eq_refl in Hid. discriminate.
Qed.

Lemma no_placeholder_app l1 l2 :
  no_placeholder l1 -> no_placeholder l2 -> no_placeholder (l1 ++ l2).
Proof. intros H1 H2. apply Forall_app. now split. Qed.

Lemma handleSendMessage_send_cases (now : Ticks) (a : State) :
  handleSendMessage_send now a = Ok (a, None) \/
  handleSendMessage_send now a = Throw \/
  exists current, sendable a current /\ readable (storage a).
Proof.
  unfold handleSendMessage_send, sendable.
  destruct (currentSession a) as [current|]; [|now left].
  destruct (user a) as [u|]; [|now left].
  destruct (truthy (trim (inputText a))); [|now left].
  destruct (isProcessing a); [now left|]. cbn [negb orb].
  unfold stored. cbn [storage setSessions].
  destruct (storage a) as [[| |l]|] eqn:Es.
  - right; right. exists current. now repeat split.
  - right; left. reflexivity.
  - right; right. exists current. now repeat split.
  - right; right. exists current. now repeat split.
Qed.

(** A whole exchange leaves no loading placeholder behind, whatever
    the model channel does. *)
Lemma exchange_leaves_no_placeholder (now now' : Ticks) (a a' : State) :
  tidy a ->
  handleSendMessage JSON_parse gemini now now' a = Ok a' ->
  tidy a'.
Proof.
  intros Htidy. unfold handleSendMessage.
  destruct (handleSendMessage_send_cases now a)
    as [E|[E|(current & Hs & Hr)]]; rewrite ?E;
    [now intros [= <-] | discriminate |].
  pose proof (handleSendMessage_send_ok now a current Hs Hr) as E.
  cbv zeta in E. rewrite E. clear E.
  destruct Hs as (Hcur & _).
  assert (Hprior : no_placeholder (ChatSession.messages current)).
  { unfold currentSession in Hcur.
    destruct (currentSessionId a) as [id|]; [|discriminate].
    apply (find_has_id id) in Hcur as [_ Hin].
    exact (proj1 (Forall_forall _ _) Htidy _ Hin). }
  assert (Hupdated :
    no_placeholder (ChatSession.messages (updatedSession_of now a current))).
  { apply no_placeholder_app; [assumption | now repeat constructor]. }
  unfold handleSendMessage_settle.
  cbn [ex_userMessage ex_updatedSession ex_sessionId].
  destruct (sendMessageToGemini JSON_parse _) as [response|];
    unfold stored, setSessions, setIsProcessing, setStorage;
    cbn [user sessions currentSessionId inputText isProcessing sidebarOpen
         storage];
    rewrite saveChatSession_readable by discriminate;
    intros [= <-]; unfold tidy; cbn [sessions].
  - constructor.
    + apply no_placeholder_app; [assumption | now repeat constructor].
    + apply Forall_forall. intros s Hin.
      apply otherSessions_replaced in Hin; [|reflexivity].
      exact (proj1 (Forall_forall _ _) Htidy _ Hin).
  - apply Forall_forall. intros s Hin.
    apply replaceSession_In in Hin as [->|[Hin Hid]].
    + apply no_placeholder_app; [assumption | now repeat constructor].
    + apply replaceSession_In in Hin as [->|[Hin _]].
      * unfold has_id in Hid. cbn in Hid.
        rewrite strict_eq_refl in Hid. discriminate.
      * exact (proj1 (Forall_forall _ _) Htidy _ Hin).
Qed.
End Placeholders.

(** The scenario of the specification: the reply carries a report, and
    the message that replaces the placeholder holds it. *)
Example exchange_with_report :
  exists a' answered reply,
    handleSendMessage JsonText.read answering clock clock' asking = Ok a' /\
    currentSession a' = Some answered /\
    ChatSession.messages answered
    = [INITIAL_WELCOME_MSG;
       message (js "1700000010000") Role.user NVDA_QUESTION;
       reply] /\
    ChatMessage.isReport reply = Some true /\
    ChatMessage.reportData reply = Some report_value /\
    ChatMessage.isLoading reply = None /\
    ChatMessage.groundingUrls reply
    = Some [{| title := js "Apple"; uri := js "https://example.com/aapl" |}] /\
    isProcessing a' = false /\
    getChatSessions demo (storage a') = Ok [answered].
Proof. do 3 eexists. repeat split. Qed.

(** ** Numeric substrings and [parseValue] *)

Section NumberFacts.
Implicit Types (s body rest : jsstring).

Lemma firstn_prefix s p rest :
  s = p ++ rest -> firstn (List.length s - List.length rest) s = p.
Proof.
  intros ->. rewrite length_app.
  replace (_ + _ - _) with (List.length p) by lia.
  apply firstn_app_length.
Qed.

Lemma lit1 {R : Type} (c0 : code_unit) (k : @cont R) s :
  lit [c0] k s =
  match s with
  | c :: s' => if (c0 =? c)%N then k s' else None
  | [] => None
  end.
Proof. reflexivity. Qed.

Lemma plus_longest {R : Type} (k : @cont R) body :
  (forall rest, k rest <> None) ->
  plus is_digit k body =
  match takeDigits body with
  | [] => None
  | _ :: _ => k (dropDigits body)
  end.
Proof.
  intros Hk. unfold plus, takeDigits, dropDigits.
  destruct body as [|c body]; [reflexivity|]. simpl.
  destruct (is_digit c); [|reflexivity].
  destruct (k (dropWhile is_digit body)) as [r|] eqn:E.
  - now apply star_longest.
  - now apply Hk in E.
Qed.

(** The expression after its sign, on [body], where [s = sign ++ body]. *)
Lemma digits_and_fraction (sign body : jsstring) :
  plus is_digit
    (opt (fun k => lit [DOT] (plus is_digit k))
       (fun rest =>
          Some (firstn (List.length (sign ++ body) - List.length rest)
                  (sign ++ body)))) body
  = match takeDigits body with
    | [] => None
    | whole =>
        Some (sign ++ whole ++
              match dropDigits body with
              | c :: f =>
                  if (c =? DOT)%N then
                    match takeDigits f with
                    | [] => []
                    | digits => DOT :: digits
                    end
                  else []
              | [] => []
              end)
    end.
Proof.
  set (fin := fun rest => Some (firstn _ _)).
  rewrite plus_longest.
  2:{ intros rest. unfold opt.
      destruct (lit [DOT] (plus is_digit fin) rest); discriminate. }
  pose proof (take_drop_While is_digit body) as Hsplit.
  fold (takeDigits body) (dropDigits body) in Hsplit.
  destruct (takeDigits body) as [|d whole] eqn:Ew; [reflexivity|].
  set (w := d :: whole) in *.
  unfold opt. destruct (dropDigits body) as [|c f] eqn:Ed.
  - simpl. subst fin. cbv beta. f_equal. apply firstn_prefix.
    now rewrite Hsplit, !app_nil_r.
  - rewrite lit1, (N.eqb_sym DOT c).
    destruct (c =? DOT)%N eqn:Ec.
    + pose proof (proj1 (N.eqb_eq _ _) Ec) as Hc.
      rewrite plus_longest by (intros rest; discriminate).
      pose proof (take_drop_While is_digit f) as Hf.
      fold (takeDigits f) (dropDigits f) in Hf.
      destruct (takeDigits f) as [|d' digits] eqn:Ef;
        subst fin; cbv beta iota; f_equal; apply firstn_prefix.
      * now rewrite Hsplit, app_nil_r, <- !app_assoc.
      * rewrite Hsplit, Hf at 1. rewrite Hc. now rewrite <- !app_assoc.
    + subst fin. cbv beta. f_equal. apply firstn_prefix.
      now rewrite Hsplit, app_nil_r, <- !app_assoc.
Qed.

Lemma re_number_numeric_at s : re_number s = numeric_at s.
Proof.
  unfold re_number, numeric_at, opt at 1.
  destruct s as [|c s'].
  - reflexivity.
  - rewrite lit1, (N.eqb_sym MINUS c). destruct (c =? MINUS)%N eqn:Ec.
    + pose proof (digits_and_fraction [MINUS] s') as H.
      apply N.eqb_eq in Ec. subst c.
      change ([MINUS] ++ s') with (MINUS :: s') in H. rewrite H.
      change (tl (MINUS :: s')) with s'.
      now destruct (takeDigits s').
    + pose proof (digits_and_fraction [] (c :: s')) as H.
      change ([] ++ c :: s') with (c :: s') in H. rewrite H.
      now destruct (takeDigits (c :: s')).
Qed.

Lemma search_eq {R : Type} (m : jsstring -> option R) before s :
  search m before s =
  match m s with
  | Some r => Some (rev before, r)
  | None =>
      match s with
      | c :: s' => search m (c :: before) s'
      | [] => None
      end
  end.
Proof. destruct s; reflexivity. Qed.

Lemma search_first_numeric before s :
  match search re_number before s with
  | Some (_, m) => Some m
  | None => None
  end = first_numeric s.
Proof.
  revert before; induction s as [|c s IH]; intros before;
    rewrite search_eq, re_number_numeric_at.
  - reflexivity.
  - simpl first_numeric.
    destruct (numeric_at (c :: s)); [reflexivity|]. apply IH.
Qed.
End NumberFacts.

Section RoundingFacts.
Import SpecFloat.
Implicit Types (r : shr_record) (m e n : Z) (l : location).

Lemma shr_1_m r : (0 <= shr_m r)%Z -> shr_m (shr_1 r) = (shr_m r / 2)%Z.
Proof.
  destruct r as [m b s]. cbn [shr_m]. intros Hm.
  rewrite <- Z.div2_div.
  destruct m as [|[p|p|]|p]; try reflexivity. lia.
Qed.

Lemma iter_pos_shr_1 (p : positive) r :
  (0 <= shr_m r)%Z ->
  shr_m (iter_pos shr_1 p r) = (shr_m r / 2 ^ Zpos p)%Z.
Proof.
  revert r. induction p as [p IH|p IH|]; intros r Hr; cbn [iter_pos].
  - assert (H1 : (0 <= shr_m (shr_1 r))%Z)
      by (rewrite shr_1_m by exact Hr; apply Z.div_pos; lia).
    assert (H2 : (0 <= shr_m (iter_pos shr_1 p (shr_1 r)))%Z)
      by (rewrite IH by exact H1; apply Z.div_pos; lia).
    rewrite IH by exact H2. rewrite IH by exact H1.
    rewrite shr_1_m by exact Hr.
    assert (Hpow : (2 ^ Zpos p~1 = 2 * 2 ^ Zpos p * 2 ^ Zpos p)%Z).
    { replace (Zpos p~1) with (1 + Zpos p + Zpos p)%Z by lia.
      now rewrite !Z.pow_add_r by lia. }
    assert (0 < 2 ^ Zpos p)%Z by (apply Z.pow_pos_nonneg; lia).
    rewrite (Z.div_div (shr_m r) 2 (2 ^ Zpos p)) by lia.
    rewrite Z.div_div by lia. now rewrite Hpow.
  - assert (H1 : (0 <= shr_m (iter_pos shr_1 p r))%Z)
      by (rewrite IH by exact Hr; apply Z.div_pos; lia).
    rewrite IH by exact H1. rewrite IH by exact Hr.
    assert (Hpow : (2 ^ Zpos p~0 = 2 ^ Zpos p * 2 ^ Zpos p)%Z).
    { replace (Zpos p~0) with (Zpos p + Zpos p)%Z by lia.
      now rewrite !Z.pow_add_r by lia. }
    assert (0 < 2 ^ Zpos p)%Z by (apply Z.pow_pos_nonneg; lia).
    rewrite Z.div_div by lia. now rewrite Hpow.
  - rewrite shr_1_m by exact Hr. reflexivity.
Qed.

(** A shift to the right by [n] places divides the mantissa by [2 ^ n]. *)
Lemma shr_spec r e n :
  (0 <= shr_m r)%Z ->
  shr_m (fst (shr r e n)) = (shr_m r / 2 ^ Z.max 0 n)%Z /\
  snd (shr r e n) = (e + Z.max 0 n)%Z.
Proof.
  intros Hr. destruct n as [|p|p]; cbn [shr fst snd].
  - change (Z.max 0 0) with 0%Z. rewrite Z.div_1_r. split; [reflexivity | lia].
  - rewrite iter_pos_shr_1 by exact Hr.
    replace (Z.max 0 (Zpos p)) with (Zpos p) by lia. split; reflexivity.
  - replace (Z.max 0 (Zneg p)) with 0%Z by lia.
    rewrite Z.div_1_r. split; [reflexivity | lia].
Qed.

Lemma shr_record_of_loc_m m l : shr_m (shr_record_of_loc m l) = m.
Proof. now destruct l as [|[]]. Qed.

Lemma digits2_pos_le (p : positive) :
  (2 ^ (Zpos (digits2_pos p) - 1) <= Zpos p)%Z.
Proof.
  induction p as [p IH|p IH|]; cbn [digits2_pos]; [| |reflexivity].
  - rewrite Pos2Z.inj_succ.
    replace (Z.succ (Zpos (digits2_pos p)) - 1)%Z
      with (Z.succ (Zpos (digits2_pos p) - 1)) by lia.
    rewrite Z.pow_succ_r by lia. lia.
  - rewrite Pos2Z.inj_succ.
    replace (Z.succ (Zpos (digits2_pos p)) - 1)%Z
      with (Z.succ (Zpos (digits2_pos p) - 1)) by lia.
    rewrite Z.pow_succ_r by lia. lia.
Qed.

Lemma shr_fexp_nonneg m e l :
  (0 <= m)%Z -> (0 <= shr_m (fst (shr_fexp prec emax m e l)))%Z.
Proof.
  intros Hm. unfold shr_fexp.
  pose proof (shr_spec (shr_record_of_loc m l) e
                (fexp prec emax (Zdigits2 m + e) - e)) as H.
  rewrite shr_record_of_loc_m in H. destruct (H Hm) as [-> _].
  apply Z.div_pos; [exact Hm|]. apply Z.pow_pos_nonneg; lia.
Qed.

(** A positive mantissa at an exponent that a double can have stays
    positive when it is cut to 53 bits. *)
Lemma shr_fexp_pos m e l :
  (0 < m)%Z -> (-1074 <= e)%Z ->
  (0 < shr_m (fst (shr_fexp prec emax m e l)))%Z /\
  (-1074 <= snd (shr_fexp prec emax m e l))%Z.
Proof.
  intros Hm He. unfold shr_fexp.
  pose proof (shr_spec (shr_record_of_loc m l) e
                (fexp prec emax (Zdigits2 m + e) - e)) as H.
  rewrite shr_record_of_loc_m in H.
  destruct (H ltac:(lia)) as [-> ->]. clear H.
  split; [|lia].
  destruct m as [|p|p]; try lia. cbn [Zdigits2].
  pose proof (digits2_pos_le p) as Hd.
  unfold fexp, emin, prec, emax.
  set (d := Zpos (digits2_pos p)) in *.
  assert (Hd1 : (1 <= d)%Z) by (subst d; lia).
  apply Z.div_str_pos. split; [apply Z.pow_pos_nonneg; lia|].
  apply Z.le_trans with (2 ^ (d - 1))%Z; [|exact Hd].
  apply Z.pow_le_mono_r; lia.
Qed.

Lemma round_nearest_even_ge m l : (m <= round_nearest_even m l)%Z.
Proof.
  destruct l as [|[]]; cbn [round_nearest_even]; try lia.
  destruct (Z.even m); lia.
Qed.

Lemma binary_round_aux_not_nan (sx : bool) m e l :
  (0 <= m)%Z -> binary_round_aux prec emax sx m e l <> S754_nan.
Proof.
  intros Hm. unfold binary_round_aux.
  pose proof (shr_fexp_nonneg m e l Hm) as H1.
  destruct (shr_fexp prec emax m e l) as [mrs' e'] eqn:E1. cbn [fst] in H1.
  pose proof (round_nearest_even_ge (shr_m mrs') (loc_of_shr_record mrs')) as H2.
  pose proof (shr_fexp_nonneg
                (round_nearest_even (shr_m mrs') (loc_of_shr_record mrs'))
                e' loc_Exact ltac:(lia)) as H3.
  destruct (shr_fexp prec emax _ e' loc_Exact) as [mrs'' e''] eqn:E2.
  cbn [fst] in H3.
  destruct (shr_m mrs'') as [|p|p]; [discriminate| |lia].
  destruct (e'' <=? emax - prec)%Z; discriminate.
Qed.

Lemma binary_round_aux_not_zero (sx s : bool) m e l :
  (0 < m)%Z -> (-1074 <= e)%Z ->
  binary_round_aux prec emax sx m e l <> S754_zero s.
Proof.
  intros Hm He. unfold binary_round_aux.
  pose proof (shr_fexp_pos m e l Hm He) as [H1 H1'].
  destruct (shr_fexp prec emax m e l) as [mrs' e'] eqn:E1.
  cbn [fst snd] in H1, H1'.
  pose proof (round_nearest_even_ge (shr_m mrs') (loc_of_shr_record mrs')) as H2.
  pose proof (shr_fexp_pos
                (round_nearest_even (shr_m mrs') (loc_of_shr_record mrs'))
                e' loc_Exact ltac:(lia) H1') as [H3 _].
  destruct (shr_fexp prec emax _ e' loc_Exact) as [mrs'' e''] eqn:E2.
  cbn [fst] in H3.
  destruct (shr_m mrs'') as [|p|p]; [lia| |discriminate].
  destruct (e'' <=? emax - prec)%Z; discriminate.
Qed.

Lemma SFdiv_core_binary_spec (n d : positive) q e l :
  SFdiv_core_binary prec emax (Zpos n) 0 (Zpos d) 0 = (q, e, l) ->
  (0 <= q)%Z /\ (-1074 <= e)%Z /\ (Zpos d <= Zpos n -> 0 < q)%Z.
Proof.
  unfold SFdiv_core_binary.
  set (e' := Z.min _ _). set (s := (0 - 0 - e')%Z).
  set (m' := match s with Z0 => Zpos n | Zpos _ => Z.shiftl (Zpos n) s
                     | Zneg _ => 0%Z end).
  assert (He : (-1074 <= e' <= 0)%Z).
  { subst e'. unfold fexp, emin, prec, emax. lia. }
  assert (Hm : (Zpos n <= m')%Z).
  { subst m'. destruct s as [|p|p] eqn:Es; [lia| |lia].
    rewrite Z.shiftl_mul_pow2 by lia.
    assert (1 <= 2 ^ Zpos p)%Z by (apply Z.lt_pred_le, Z.pow_pos_nonneg; lia).
    nia. }
  pose proof (Z.div_eucl_eq m' (Zpos d) ltac:(lia)) as Hdiv.
  pose proof (Z.mod_pos_bound m' (Zpos d) ltac:(lia)) as Hmod.
  unfold Z.modulo in Hmod.
  destruct (Z.div_eucl m' (Zpos d)) as [q' r'].
  intros [= <- <- _]. split; [nia|]. split; [lia|]. intros Hle. nia.
Qed.

(** Rounding never gives [NaN], and a magnitude of at least one never
    rounds to a zero. *)
Lemma roundMV_not_nan (negative : bool) (mv : Q) :
  roundMV negative mv <> S754_nan.
Proof.
  unfold roundMV. destruct (Qnum mv) as [|n|n]; try discriminate.
  unfold SFdiv.
  destruct (SFdiv_core_binary prec emax (Zpos n) 0 (Zpos (Qden mv)) 0)
    as [[q e] l] eqn:E.
  apply SFdiv_core_binary_spec in E as (Hq & _).
  now apply binary_round_aux_not_nan.
Qed.

Lemma roundMV_not_zero (negative s : bool) (mv : Q) :
  (Zpos (Qden mv) <= Qnum mv)%Z ->
  roundMV negative mv <> S754_zero s.
Proof.
  unfold roundMV. intros Hge.
  destruct (Qnum mv) as [|n|n]; try lia.
  unfold SFdiv.
  destruct (SFdiv_core_binary prec emax (Zpos n) 0 (Zpos (Qden mv)) 0)
    as [[q e] l] eqn:E.
  apply SFdiv_core_binary_spec in E as (_ & He & Hq).
  apply binary_round_aux_not_zero; [now apply Hq | exact He].
Qed.
End RoundingFacts.

Section ParseFloatFacts.
Import SpecFloat.
Implicit Types (s body rest : jsstring).

Lemma takeWhile_app_stop (cls : code_unit -> bool) (w t : jsstring) :
  forallb cls w = true ->
  match t with c :: _ => cls c = false | [] => True end ->
  takeWhile cls (w ++ t) = w.
Proof.
  intros Hw Ht. induction w as [|c w IH]; simpl in *.
  - destruct t as [|c t]; simpl; [reflexivity|]. now rewrite Ht.
  - apply andb_true_iff in Hw as [Hc Hw]. rewrite Hc. f_equal. auto.
Qed.

Lemma takeWhile_head (cls : code_unit -> bool) body (d : code_unit)
  (whole : jsstring) :
  takeWhile cls body = d :: whole -> exists rest, body = d :: rest.
Proof.
  destruct body as [|c body]; simpl; [discriminate|].
  destruct (cls c); [|discriminate]. intros [= -> _]. now exists body.
Qed.

(** On a numeric text, [parseFloat] is the rounding of the decimal
    number that the digits denote, under the sign of the text. *)
Lemma parseFloat_digits (negative : bool) (whole fraction : jsstring) :
  whole <> [] ->
  forallb is_digit whole = true ->
  forallb is_digit fraction = true ->
  parseFloat ((if negative then [MINUS] else [])
                ++ whole
                ++ match fraction with [] => [] | _ => DOT :: fraction end)
  = roundMV negative (decimal false whole fraction).
Proof.
  intros Hne Hw Hf. unfold parseFloat.
  set (tail := match fraction with [] => [] | _ => DOT :: fraction end).
  assert (Hstop : match tail with c :: _ => is_digit c = false | [] => True end)
    by (subst tail; now destruct fraction).
  set (m := (if negative then [MINUS] else []) ++ whole ++ tail).
  assert (Eneg : match m with c :: _ => (c =? MINUS)%N | [] => false end
                 = negative).
  { subst m. destruct negative; [reflexivity|]. simpl.
    destruct whole as [|d whole]; [congruence|]. simpl in *.
    apply andb_true_iff in Hw as [Hd _].
    destruct (d =? MINUS)%N eqn:E; [|reflexivity].
    apply N.eqb_eq in E. subst d. discriminate. }
  rewrite Eneg.
  replace (if negative then tl m else m) with (whole ++ tail)
    by (subst m; now destruct negative).
  unfold takeDigits, dropDigits.
  rewrite (takeWhile_app_stop is_digit whole tail Hw Hstop).
  rewrite (dropWhile_app_stop is_digit whole tail Hw Hstop).
  destruct whole as [|d whole]; [congruence|].
  subst tail. destruct fraction as [|f fraction]; [reflexivity|].
  now rewrite N.eqb_refl, Hf.
Qed.

(** The numeric text at the head of a string begins, after its sign,
    with a digit of the string, and [parseFloat] rounds its value. *)
Lemma numeric_at_value s m :
  numeric_at s = Some m ->
  exists (negative : bool) (d : code_unit) (whole fraction rest : jsstring),
    (if negative then tl s else s) = d :: rest /\
    is_digit d = true /\
    parseFloat m = roundMV negative (decimal false (d :: whole) fraction).
Proof.
  unfold numeric_at.
  set (negative := match s with
                   | c :: _ => (c =? MINUS)%N
                   | [] => false
                   end).
  set (body := if negative then tl s else s).
  pose proof (takeWhile_all is_digit body) as Hw.
  fold (takeDigits body) in Hw.
  destruct (takeDigits body) as [|d whole] eqn:Ew; [discriminate|].
  intros [= <-].
  set (fraction :=
         match dropDigits body with
         | c :: f => if (c =? DOT)%N then takeDigits f else []
         | [] => []
         end).
  destruct (takeWhile_head _ _ _ _ Ew) as [rest Eb].
  exists negative, d, whole, fraction, rest.
  split; [exact Eb|]. split.
  { simpl in Hw. now apply andb_true_iff in Hw as [Hd _]. }
  rewrite <- (parseFloat_digits negative (d :: whole) fraction);
    [|discriminate|assumption|].
  - do 3 f_equal. subst fraction.
    destruct (dropDigits body) as [|c f]; [reflexivity|].
    destruct (c =? DOT)%N; [|reflexivity].
    now destruct (takeDigits f).
  - subst fraction. destruct (dropDigits body) as [|c f]; [reflexivity|].
    destruct (c =? DOT)%N; [|reflexivity]. apply takeWhile_all.
Qed.

Lemma first_numeric_not_nan s m :
  first_numeric s = Some m -> parseFloat m <> S754_nan.
Proof.
  induction s as [|c s IH]; simpl first_numeric.
  - discriminate.
  - destruct (numeric_at (c :: s)) eqn:E; [|exact IH].
    intros [= <-].
    apply numeric_at_value in E as (negative & d & whole & fraction & rest
                                    & _ & _ & ->).
    apply roundMV_not_nan.
Qed.

Lemma first_numeric_no_digit s :
  existsb is_digit s = false -> first_numeric s = None.
Proof.
  induction s as [|c s IH]; [reflexivity|].
  intros H. simpl in H. apply orb_false_iff in H as [Hc Hs].
  simpl first_numeric. rewrite (IH Hs).
  unfold numeric_at. destruct (c =? MINUS)%N.
  - destruct s as [|d s]; [reflexivity|]. simpl in Hs.
    apply orb_false_iff in Hs as [Hd _].
    unfold takeDigits. simpl. now rewrite Hd.
  - unfold takeDigits. simpl. now rewrite Hc.
Qed.

Lemma remove_commas_no_digit s :
  existsb is_digit s = false -> existsb is_digit (remove_commas s) = false.
Proof.
  induction s as [|c s IH]; [reflexivity|]. simpl.
  intros H. apply orb_false_iff in H as [Hc Hs].
  destruct (negb (c =? COMMA)%N); simpl; rewrite ?Hc; auto.
Qed.

Lemma remove_commas_without s : remove_commas s = without_commas s.
Proof.
  induction s as [|c s IH]; [reflexivity|]. simpl.
  change (c =? COMMA)%N with (c =? 0x2C)%N.
  destruct (c =? 0x2C)%N; simpl; now rewrite IH.
Qed.

Lemma parseValue_first_numeric s :
  parseValue (Str s)
  = match first_numeric (remove_commas s) with
    | Some m => parseFloat m
    | None => S754_zero false
    end.
Proof.
  unfold parseValue.
  rewrite <- (search_first_numeric [] (remove_commas s)).
  now destruct (search re_number [] (remove_commas s)) as [[? ?]|].
Qed.
End ParseFloatFacts.

(** The rounding at work: a fraction that no double holds, the sign kept
    on zero and on a negative number, a tie that goes up to the even
    neighbour, the least positive double and what rounds to zero below
    it, and the greatest power of ten that a double can hold. *)
Example parseFloat_rounds :
  parseFloat (js "0.1") = SpecFloat.S754_finite false 7205759403792794 (-56) /\
  parseFloat (js "-0") = SpecFloat.S754_zero true /\
  parseFloat (js "-2.5") = SpecFloat.S754_finite true 5629499534213120 (-51) /\
  parseFloat (js "9007199254740995")
  = SpecFloat.S754_finite false 4503599627370498 1 /\
  parseFloat (js "0." ++ repeat 0x30%N 323 ++ js "3")
  = SpecFloat.S754_finite false 1 (-1074) /\
  parseFloat (js "0." ++ repeat 0x30%N 323 ++ js "2")
  = SpecFloat.S754_zero false /\
  parseFloat (js "1" ++ repeat 0x30%N 308)
  = SpecFloat.S754_finite false 5010420900022432 971 /\
  parseFloat (js "2" ++ repeat 0x30%N 308) = SpecFloat.S754_infinity false.
Proof. repeat split; vm_compute; reflexivity. Qed.

(** C10.  [parseValue] is a total function.  It returns a number input
    as it is.  For a string input it returns what [parseFloat] makes of
    the first numeric substring of the string without its commas, which
    is a double and never [NaN]; it returns 0 when there is no numeric
    substring, in particular when the string has no digit.  The doubles
    of the examples are 150.2, 25.4, 12 and 0; commas are dropped before
    the search (1234.5), a long run of digits is rounded to the nearest
    double (9007199254740992) and 400 digits give [Infinity]. *)
Theorem parseValue_spec :
  (forall n, parseValue (Number n) = n) /\
  (forall s,
     parseValue (Str s)
     = match first_numeric (without_commas s) with
       | Some m => parseFloat m
       | None => SpecFloat.S754_zero false
       end) /\
  (forall s, parseValue (Str s) <> SpecFloat.S754_nan) /\
  (forall s, existsb is_digit s = false ->
             parseValue (Str s) = SpecFloat.S754_zero false) /\
  parseValue (Str (js "$150.20"))
  = SpecFloat.S754_finite false 5284692687742566 (-45) /\
  parseValue (Str (js "25.4x"))
  = SpecFloat.S754_finite false 7149464408450662 (-48) /\
  parseValue (Str (js "12%"))
  = SpecFloat.S754_finite false 6755399441055744 (-49) /\
  parseValue (Str (js "N/A")) = SpecFloat.S754_zero false /\
  parseValue (Str (js "1,234.5"))
  = SpecFloat.S754_finite false 5429388417957888 (-42) /\
  parseValue (Str (js "9007199254740993"))
  = SpecFloat.S754_finite false 4503599627370496 1 /\
  parseValue (Str (repeat 0x39%N 400)) = SpecFloat.S754_infinity false.
Proof.
  split; [reflexivity|]. split.
  { intros s. rewrite <- remove_commas_without.
    apply parseValue_first_numeric. }
  split; [|split; [|repeat split; vm_compute; reflexivity]].
  - intros s. rewrite parseValue_first_numeric.
    destruct (first_numeric (remove_commas s)) as [m|] eqn:E.
    + now apply first_numeric_not_nan in E.
    + discriminate.
  - intros s H. rewrite parseValue_first_numeric.
    now rewrite (first_numeric_no_digit _ (remove_commas_no_digit _ H)).
Qed.

Lemma parseValue_spec_witness :
  existsb is_digit (js "N/A") = false /\
  parseValue (Str (js "N/A")) = SpecFloat.S754_zero false.
Proof.
  split; [reflexivity|].
  exact (proj1 (proj2 (proj2 (proj2 parseValue_spec))) (js "N/A") eq_refl).
Defined.


(* ================================================================== *)
(** * More about the report extractor and the model channel *)
(* ================================================================== *)

Section TrimFacts.
Implicit Types (s : jsstring).

Lemma dropWhile_idem (cls : code_unit -> bool) s :
  dropWhile cls (dropWhile cls s) = dropWhile cls s.
Proof.
  pose proof (dropWhile_head cls s) as H.
  destruct (dropWhile cls s) as [|c t]; [reflexivity|].
  simpl. now rewrite H.
Qed.

Lemma trimEnd_idem s : trimEnd (trimEnd s) = trimEnd s.
Proof.
  unfold trimEnd, trimStart. rewrite rev_involutive.
  now rewrite dropWhile_idem.
Qed.

Lemma trimStart_trimEnd s :
  match s with c :: _ => is_space c = false | [] => True end ->
  trimStart (trimEnd s) = trimEnd s.
Proof.
  destruct s as [|c s]; [reflexivity|]. intros Hc.
  rewrite trimEnd_cons. simpl forallb. rewrite Hc. simpl.
  unfold trimStart. simpl. now rewrite Hc.
Qed.

(** [trim] leaves nothing to trim. *)
Lemma trim_idem s : trim (trim s) = trim s.
Proof.
  unfold trim. rewrite trimStart_trimEnd.
  - apply trimEnd_idem.
  - exact (dropWhile_head is_space s).
Qed.
End TrimFacts.

Section ExtractorShape.
Variable JSON_parse : jsstring -> option json.

(** What the extractor can return. *)
Lemma extractReport_cases (text : jsstring) :
  extractReport JSON_parse text = (text, None) \/
  exists pre raw post parsed,
    fenced text pre raw post /\
    trim raw <> [] /\
    JSON_parse (trim raw) = Some parsed /\
    extractReport JSON_parse text
    = (if truthy (trim (pre ++ post)) then trim (pre ++ post) else FALLBACK,
       Some parsed).
Proof.
  unfold extractReport.
  destruct (jsonMatch text) as [g|] eqn:E; [|now left].
  destruct (jsonMatch_sound _ _ E) as (pre0 & raw0 & post0 & Htext).
  destruct (fenced_exists _ _ _ _ Htext) as (pre & raw & post & Hf).
  rewrite (jsonMatch_fence _ _ _ _ Hf) in E. injection E as <-.
  destruct (truthy (trim raw)) eqn:Et; [|now left].
  destruct (JSON_parse (trim raw)) as [parsed|] eqn:Ep; [|now left].
  right. exists pre, raw, post, parsed.
  rewrite (replace_block_fence _ _ _ _ Hf).
  split; [exact Hf|].
  split; [intros Hnil; rewrite Hnil in Et; discriminate|].
  split; [exact Ep | reflexivity].
Qed.

(** X1.  The extractor returns a report only for a response that holds
    a first report fence whose inner content is not empty and parses,
    and then the text it returns is the response without that fence,
    trimmed (or the fallback sentence); in every other case it returns
    the response unchanged and no report. *)
Theorem extractReport_sound (text : jsstring) :
  extractReport JSON_parse text = (text, None) \/
  exists pre raw post parsed,
    fenced text pre raw post /\
    trim raw <> [] /\
    JSON_parse (trim raw) = Some parsed /\
    extractReport JSON_parse text
    = (if truthy (trim (pre ++ post)) then trim (pre ++ post) else FALLBACK,
       Some parsed).
Proof. exact (extractReport_cases text). Qed.

Lemma extractReport_text (text : jsstring) :
  text <> [] ->
  fst (extractReport JSON_parse text) <> [] /\
  (snd (extractReport JSON_parse text) <> None ->
   trim (fst (extractReport JSON_parse text))
   = fst (extractReport JSON_parse text)).
Proof.
  intros Hne.
  destruct (extractReport_cases text)
    as [E|(pre & raw & post & parsed & _ & _ & _ & E)]; rewrite E; simpl.
  - split; [assumption|]. intros H. now elim H.
  - destruct (truthy (trim (pre ++ post))) eqn:Et.
    + split; [|intros _; apply trim_idem].
      intros Hnil. rewrite Hnil in Et. discriminate.
    + split; [discriminate|]. intros _. reflexivity.
Qed.

Lemma sendMessageToGemini_Ok (channel : Channel) (reply : Reply) :
  sendMessageToGemini JSON_parse channel = Ok reply ->
  exists r responseText,
    channel = Resolves r /\
    responseText <> [] /\
    (responseText = NO_RESPONSE \/ result_text r = Some responseText) /\
    text reply = fst (extractReport JSON_parse responseText) /\
    reportData reply = snd (extractReport JSON_parse responseText) /\
    groundingUrls reply = extract_grounding (groundingChunks r).
Proof.
  destruct channel as [| |r]; simpl; try discriminate.
  set (responseText := match result_text r with
                       | Some t => if truthy t then t else NO_RESPONSE
                       | None => NO_RESPONSE
                       end).
  assert (Hresp : responseText <> [] /\
                  (responseText = NO_RESPONSE \/
                   result_text r = Some responseText)).
  { subst responseText. destruct (result_text r) as [[|c t]|]; simpl.
    - split; [discriminate | now left].
    - split; [discriminate | now right].
    - split; [discriminate | now left]. }
  destruct (extractReport JSON_parse responseText) as [cleanText report] eqn:E.
  intros [= <-]. exists r, responseText. destruct Hresp as [H1 H2].
  rewrite ?E. repeat split; assumption || reflexivity.
Qed.

(** X2.  The text of a reply that [sendMessageToGemini] resolves to is
    never the empty string: an empty or missing [result.text] is
    replaced by the fixed sentence, and a report that leaves no text
    around it by the fallback sentence. *)
Theorem reply_text_not_empty (channel : Channel) (reply : Reply) :
  sendMessageToGemini JSON_parse channel = Ok reply ->
  text reply <> [].
Proof.
  intros H. apply sendMessageToGemini_Ok in H
    as (r & responseText & _ & Hne & _ & -> & _).
  now apply extractReport_text.
Qed.

(** X3.  When [sendMessageToGemini] returns a report, the text it
    returns beside it has no white space at either end. *)
Theorem report_text_trimmed (channel : Channel) (reply : Reply) :
  sendMessageToGemini JSON_parse channel = Ok reply ->
  reportData reply <> None ->
  trim (text reply) = text reply.
Proof.
  intros H. apply sendMessageToGemini_Ok in H
    as (r & responseText & _ & Hne & _ & -> & -> & _).
  now apply extractReport_text.
Qed.

End ExtractorShape.

(** X5.  The grounding links of a reply are exactly the chunks of the
    response that have a web source with a non-empty uri and a non-empty
    title; nothing is listed for a response without chunks. *)
Theorem extract_grounding_spec (chunks : option (list Chunk))
  (g : GroundingUrl) :
  In g (extract_grounding chunks) <->
  exists cs w,
    chunks = Some cs /\
    In {| web := Some w |} cs /\
    web_uri w = Some (uri g) /\ web_title w = Some (title g) /\
    uri g <> [] /\ title g <> [].
Proof.
  destruct chunks as [cs|]; simpl.
  2:{ split; [intros [] | intros (cs & w & H & _); discriminate]. }
  rewrite in_flat_map. split.
  - intros ([[[u t]|]] & Hin & Hg); simpl in Hg; [|contradiction].
    destruct u as [u|]; [|contradiction]. destruct t as [t|]; [|contradiction].
    destruct (truthy u) eqn:Eu; [|contradiction].
    destruct (truthy t) eqn:Et; [|contradiction].
    destruct Hg as [<-|[]]. exists cs, {| web_uri := Some u; web_title := Some t |}.
    simpl. repeat split; auto; intros ->; discriminate.
  - intros (cs' & w & [= <-] & Hin & Hu & Ht & Hune & Htne).
    exists {| web := Some w |}. split; [assumption|]. simpl.
    rewrite Hu, Ht. destruct g as [t u]. simpl in *.
    destruct u; [congruence|]. destruct t; [congruence|]. now left.
Qed.

Lemma reply_text_not_empty_witness :
  exists reply,
    sendMessageToGemini JsonText.read (Resolves silent) = Ok reply /\
    text reply <> [].
Proof.
  eexists. split; [reflexivity|].
  exact (reply_text_not_empty JsonText.read (Resolves silent) _ eq_refl).
Defined.

Lemma report_text_trimmed_witness :
  exists reply,
    sendMessageToGemini JsonText.read (answering []) = Ok reply /\
    reportData reply <> None /\
    trim (text reply) = text reply.
Proof.
  eexists. split; [reflexivity|]. split; [discriminate|].
  apply (report_text_trimmed JsonText.read (answering []) _ eq_refl).
  discriminate.
Defined.


(* ================================================================== *)
(** * More about the session store *)
(* ================================================================== *)

Section MoreStorageFacts.
Implicit Types (s session : ChatSession.t) (l : list ChatSession.t)
  (ls : localStorage).

Lemma getChatSessions_listing userId ls listed :
  getChatSessions userId ls = Ok listed ->
  readable ls /\ listed = listing userId ls.
Proof.
  destruct ls as [[| |l]|]; simpl; try discriminate;
    intros [= <-]; (split; [discriminate | reflexivity]).
Qed.

Lemma filter_id {A : Type} (p : A -> bool) (l : list A) :
  filter (fun x => negb (p x)) l = l <-> filter p l = [].
Proof.
  induction l as [|x l IH]; simpl; [tauto|].
  destruct (p x) eqn:E; simpl.
  - split; [|discriminate]. intros H.
    assert (Hlen : List.length (filter (fun x => negb (p x)) l)
                   <= List.length l) by apply filter_length_le.
    rewrite H in Hlen. simpl in Hlen. lia.
  - rewrite <- IH. split; [now intros [= ->] | now intros ->].
Qed.

Lemma filter_not_id_upsert session l :
  filter (fun s => negb (has_id (ChatSession.id session) s)) (upsert session l)
  = filter (fun s => negb (has_id (ChatSession.id session) s)) l.
Proof.
  induction l as [|x l IH]; simpl.
  - now rewrite has_id_self.
  - destruct (has_id (ChatSession.id session) x) eqn:E; simpl.
    + now rewrite has_id_self.
    + now rewrite E, IH.
Qed.

(** Other users see an upsert only as the loss of a record with the
    same id. *)
Lemma upsert_other_owner (userId : jsstring) session l :
  owned_by userId session = false ->
  List.length (filter (has_id (ChatSession.id session)) l) <= 1 ->
  filter (owned_by userId) (upsert session l)
  = filter (fun s => negb (has_id (ChatSession.id session) s))
      (filter (owned_by userId) l).
Proof.
  intros Hs. induction l as [|x l IH]; simpl.
  - now rewrite Hs.
  - destruct (has_id (ChatSession.id session) x) eqn:E; simpl.
    + rewrite Hs. intros Hone.
      assert (Hnone : filter (has_id (ChatSession.id session)) l = [])
        by (destruct (filter _ l); [reflexivity | simpl in Hone; lia]).
      apply filter_id in Hnone.
      destruct (owned_by userId x); simpl; rewrite ?E; simpl;
        now rewrite filter_filter_comm, Hnone.
    + intros Hone. destruct (owned_by userId x); simpl;
        rewrite ?E; simpl; now rewrite IH.
Qed.

Lemma same_key_sorted (t : Z) l :
  Forall (fun s => ChatSession.lastModified s = t) l ->
  StronglySorted newer_or_same l.
Proof.
  induction 1 as [|x l Hx Hl IH]; constructor; [assumption|].
  apply Forall_forall. intros y Hy.
  unfold newer_or_same. rewrite Hx.
  rewrite (proj1 (Forall_forall _ _) Hl y Hy). lia.
Qed.

Lemma filter_idem {A : Type} (p : A -> bool) (l : list A) :
  filter p (filter p l) = filter p l.
Proof.
  induction l as [|x l IH]; simpl; [reflexivity|].
  destruct (p x) eqn:E; simpl; [rewrite E; f_equal|]; exact IH.
Qed.

Lemma deleteChatSession_twice id ls ls' :
  deleteChatSession id ls = Ok ls' -> deleteChatSession id ls' = Ok ls'.
Proof.
  destruct ls as [[| |l]|]; simpl; try discriminate; intros [= <-];
    try reflexivity.
  simpl. unfold JSON_stringify. now rewrite filter_idem.
Qed.
End MoreStorageFacts.

(** X6.  [getChatSessions] orders by [lastModified] only and is stable:
    the sessions of the user that have the same [lastModified] are
    listed in the order in which the store holds them. *)
Theorem getChatSessions_stable (userId : jsstring)
  (allSessions : list ChatSession.t) (t : Z) :
  exists listed,
    getChatSessions userId (Some (Stringified allSessions)) = Ok listed /\
    filter (fun s => (ChatSession.lastModified s =? t)%Z) listed
    = filter (fun s => (ChatSession.lastModified s =? t)%Z)
        (filter (owned_by userId) allSessions).
Proof.
  eexists. split; [reflexivity|].
  fold (owned_by userId). rewrite <- sort_filter.
  apply sort_sorted_id. apply (same_key_sorted t).
  apply Forall_forall. intros s Hs. apply filter_In in Hs as [_ Hs].
  now apply Z.eqb_eq.
Qed.

(** X7.  [saveChatSession] upserts by id across users.  For a user other
    than the owner of the saved session, in a store that holds the id at
    most once, the listing after the save is the listing before it
    without the session of that id: nothing is added, and a session of
    that user is lost exactly when it had the saved id. *)
Theorem saveChatSession_other_user (session : ChatSession.t)
  (ls : localStorage) (userId : jsstring) (listed : list ChatSession.t) :
  getChatSessions userId ls = Ok listed ->
  userId <> ChatSession.userId session ->
  List.length (filter (has_id (ChatSession.id session)) (stored_sessions ls)) <= 1 ->
  exists ls',
    saveChatSession session ls = Ok ls' /\
    getChatSessions userId ls'
    = Ok (filter (fun s => negb (has_id (ChatSession.id session) s)) listed).
Proof.
  intros Hget Huser Hone.
  apply getChatSessions_listing in Hget as [Hr ->].
  rewrite (saveChatSession_readable session ls Hr).
  eexists. split; [reflexivity|].
  rewrite getChatSessions_readable by discriminate. simpl stored_sessions.
  f_equal. unfold listing. rewrite <- sort_filter. f_equal.
  apply upsert_other_owner; [|assumption].
  apply strict_eq_neq. congruence.
Qed.

(** X8.  [deleteChatSession] removes the sessions of the given id from
    what is listed for every user and leaves the rest in its order;
    deleting the same id again changes nothing. *)
Theorem deleteChatSession_listing (userId id : jsstring)
  (ls : localStorage) (listed : list ChatSession.t) :
  getChatSessions userId ls = Ok listed ->
  exists ls',
    deleteChatSession id ls = Ok ls' /\
    getChatSessions userId ls'
    = Ok (filter (fun s => negb (has_id id s)) listed) /\
    deleteChatSession id ls' = Ok ls'.
Proof.
  intros Hget.
  destruct (getChatSessions_after_delete userId id ls listed Hget)
    as (ls' & Hdel & _ & Hget' & _).
  exists ls'. repeat split; try assumption.
  now apply (deleteChatSession_twice id ls).
Qed.

(** X9.  Deleting the session that was just saved leaves the records of
    every other id as they were and in their order; when the store held
    no record of that id, it holds again exactly what it held. *)
Theorem save_then_delete (session : ChatSession.t) (ls : localStorage) :
  readable ls ->
  exists ls1 ls2,
    saveChatSession session ls = Ok ls1 /\
    deleteChatSession (ChatSession.id session) ls1 = Ok ls2 /\
    stored_sessions ls2
    = filter (fun s => negb (has_id (ChatSession.id session) s))
        (stored_sessions ls) /\
    (filter (has_id (ChatSession.id session)) (stored_sessions ls) = [] ->
     stored_sessions ls2 = stored_sessions ls).
Proof.
  intros Hr. rewrite (saveChatSession_readable session ls Hr).
  do 2 eexists. split; [reflexivity|]. split; [reflexivity|].
  simpl stored_sessions. fold (has_id (ChatSession.id session)).
  assert (E := filter_not_id_upsert session (stored_sessions ls)).
  split.
  - exact E.
  - intros Hnone. rewrite <- (proj2 (filter_id _ _) Hnone) at 2. exact E.
Qed.

(** X10.  A store that only the service has written, starting from a
    browser that holds nothing, holds every session id at most once,
    and none of the three operations throws on it. *)
Theorem written_store_sound (ls : localStorage) :
  written ls ->
  NoDup (map ChatSession.id (stored_sessions ls)) /\
  (forall session, saveChatSession session ls <> Throw) /\
  (forall id, deleteChatSession id ls <> Throw) /\
  (forall userId, getChatSessions userId ls <> Throw).
Proof.
  intros H. destruct (written_store ls H) as [Hr Hu].
  split; [assumption|]. repeat split.
  - intros session. now rewrite (saveChatSession_readable session ls Hr).
  - intros id. destruct (deleteChatSession_readable id ls Hr) as (ls' & E & _).
    now rewrite E.
  - intros userId. now rewrite (getChatSessions_readable userId ls Hr).
Qed.

Lemma saveChatSession_other_user_witness :
  exists ls',
    saveChatSession intruder store = Ok ls' /\
    getChatSessions demo ls' = Ok [S1].
Proof.
  apply (saveChatSession_other_user intruder store demo [S1; S2]).
  - reflexivity.
  - apply strict_eq_neq. reflexivity.
  - simpl. lia.
Defined.

Lemma deleteChatSession_listing_witness :
  exists ls',
    deleteChatSession (ChatSession.id S1) store = Ok ls' /\
    getChatSessions demo ls'
    = Ok (filter (fun s => negb (has_id (ChatSession.id S1) s)) [S1; S2]) /\
    deleteChatSession (ChatSession.id S1) ls' = Ok ls'.
Proof.
  exact (deleteChatSession_listing demo (ChatSession.id S1) store [S1; S2]
           eq_refl).
Defined.

Lemma save_then_delete_witness :
  exists ls1 ls2,
    saveChatSession fresh store = Ok ls1 /\
    deleteChatSession (ChatSession.id fresh) ls1 = Ok ls2 /\
    stored_sessions ls2
    = filter (fun s => negb (has_id (ChatSession.id fresh) s))
        (stored_sessions store) /\
    (filter (has_id (ChatSession.id fresh)) (stored_sessions store) = [] ->
     stored_sessions ls2 = stored_sessions store).
Proof.
  apply (save_then_delete fresh store). discriminate.
Defined.

Lemma written_store_sound_witness :
  written store /\
  NoDup (map ChatSession.id (stored_sessions store)) /\
  (forall session, saveChatSession session store <> Throw) /\
  (forall id, deleteChatSession id store <> Throw) /\
  (forall userId, getChatSessions userId store <> Throw).
Proof.
  assert (H : written store).
  { apply (written_save S1 (Some (Stringified [S2; S3]))); [|reflexivity].
    apply (written_save S3 (Some (Stringified [S2]))); [|reflexivity].
    apply (written_save S2 None); [|reflexivity].
    apply written_nothing. }
  split; [exact H | exact (written_store_sound store H)].
Defined.

(* ================================================================== *)
(** * More about the controller *)
(* ================================================================== *)

Section ExchangeFacts.
Variable JSON_parse : jsstring -> option json.
Variable gemini : jsstring -> Channel.
Implicit Types (a : State) (s current : ChatSession.t)
  (l : list ChatSession.t).

Lemma otherSessions_replaceSession id new l :
  ChatSession.id new = id ->
  otherSessions id (replaceSession id new l) = otherSessions id l.
Proof.
  intros Hnew. unfold otherSessions, replaceSession.
  induction l as [|x l IH]; simpl; [reflexivity|].
  destruct (strict_eq (ChatSession.id x) id) eqn:E; simpl.
  - now rewrite Hnew, strict_eq_refl.
  - rewrite E. simpl. now rewrite IH.
Qed.

(** A whole exchange, when the guard lets the input through and the
    store can be read. *)
Lemma handleSendMessage_run (now now' : Ticks) a current :
  sendable a current ->
  readable (storage a) ->
  handleSendMessage JSON_parse gemini now now' a
  = Ok
      match sendMessageToGemini JSON_parse (gemini (inputText a)) with
      | Ok response =>
          let final :=
            settledSession_of now now' a current
              (modelMessage_of now' response) in
          {| user := user a;
             sessions :=
               final :: otherSessions (ChatSession.id current) (sessions a);
             currentSessionId := currentSessionId a;
             inputText := [];
             isProcessing := false;
             sidebarOpen := sidebarOpen a;
             storage :=
               Some (Stringified
                       (upsert final
                          (upsert (updatedSession_of now a current)
                             (stored_sessions (storage a))))) |}
      | Throw =>
          let failed :=
            settledSession_of now now' a current (errorMessage_of now') in
          {| user := user a;
             sessions :=
               replaceSession (ChatSession.id current) failed (sessions a);
             currentSessionId := currentSessionId a;
             inputText := [];
             isProcessing := false;
             sidebarOpen := sidebarOpen a;
             storage :=
               Some (Stringified
                       (upsert failed
                          (upsert (updatedSession_of now a current)
                             (stored_sessions (storage a))))) |}
      end.
Proof.
  intros Hs Hr.
  pose proof (handleSendMessage_send_ok now a current Hs Hr) as E.
  cbv zeta in E. unfold handleSendMessage. rewrite E. clear E.
  unfold handleSendMessage_settle.
  cbn [ex_userMessage ex_updatedSession ex_sessionId userMessage_of message
       ChatMessage.text].
  destruct (sendMessageToGemini JSON_parse (gemini (inputText a)))
    as [response|];
    unfold stored, setSessions, setIsProcessing, setStorage;
    cbn [user sessions currentSessionId inputText isProcessing sidebarOpen
         storage];
    rewrite saveChatSession_readable by discriminate;
    cbn [stored_sessions].
  - rewrite otherSessions_replaceSession by reflexivity. reflexivity.
  - rewrite replaceSession_twice by reflexivity. reflexivity.
Qed.

Lemma find_head id s l :
  ChatSession.id s = id -> Array.find (has_id id) (s :: l) = Some s.
Proof. intros <-. simpl. now rewrite has_id_self. Qed.

(** X11.  Every exchange that the guard lets through, whether the model
    channel answers or throws, appends exactly two messages to the
    selected session: the user's message and one model message that is
    no loading placeholder.  The session keeps its id and owner, its
    [lastModified] is the last reading of the clock, the store holds the
    session as it is shown, the input is cleared and [isProcessing] is
    false again. *)
Theorem exchange_appends_two (now now' : Ticks) (a : State)
  (current : ChatSession.t) :
  sendable a current ->
  readable (storage a) ->
  exists a' settled reply,
    handleSendMessage JSON_parse gemini now now' a = Ok a' /\
    currentSession a' = Some settled /\
    ChatSession.messages settled
    = ChatSession.messages current ++ [userMessage_of now a; reply] /\
    ChatMessage.role reply = Role.model /\
    ChatMessage.isLoading reply = None /\
    ChatSession.id settled = ChatSession.id current /\
    ChatSession.userId settled = ChatSession.userId current /\
    ChatSession.lastModified settled = t2 now' /\
    Array.find (has_id (ChatSession.id current))
      (stored_sessions (storage a')) = Some settled /\
    inputText a' = [] /\
    isProcessing a' = false.
Proof.
  intros Hs Hr. rewrite (handleSendMessage_run now now' a current Hs Hr).
  destruct Hs as (Hcur & _).
  pose proof (currentSession_id a current Hcur) as Hid.
  destruct (sendMessageToGemini JSON_parse (gemini (inputText a)))
    as [response|]; cbv zeta.
  - eexists.
    exists (settledSession_of now now' a current
              (modelMessage_of now' response)),
      (modelMessage_of now' response).
    split; [reflexivity|]. split.
    { unfold currentSession. cbn [currentSessionId sessions]. rewrite Hid.
      now apply find_head. }
    split.
    { cbn [settledSession_of withMessages ChatSession.messages
           updatedSession_of]. now rewrite <- app_assoc. }
    repeat split.
    cbn [storage stored_sessions].
    exact (find_upsert (settledSession_of now now' a current _) _).
  - eexists.
    exists (settledSession_of now now' a current (errorMessage_of now')),
      (errorMessage_of now').
    split; [reflexivity|]. split.
    { eapply (currentSession_replaced a _ current);
        [exact Hcur | reflexivity..]. }
    split.
    { cbn [settledSession_of withMessages ChatSession.messages
           updatedSession_of]. now rewrite <- app_assoc. }
    repeat split.
    cbn [storage stored_sessions].
    exact (find_upsert (settledSession_of now now' a current _) _).
Qed.

(** X12.  When the model channel answers, the session of the exchange
    moves to the front of the list in memory and the other sessions keep
    their order; its last message carries the text, the report and the
    grounding links of the reply, and [isReport] is set exactly when the
    report is a truthy value, so that [isReport] implies that
    [reportData] is there. *)
Theorem exchange_answered (now now' : Ticks) (a : State)
  (current : ChatSession.t) (response : Reply) :
  sendable a current ->
  readable (storage a) ->
  sendMessageToGemini JSON_parse (gemini (inputText a)) = Ok response ->
  exists a' answered reply,
    handleSendMessage JSON_parse gemini now now' a = Ok a' /\
    sessions a'
    = answered :: otherSessions (ChatSession.id current) (sessions a) /\
    ChatSession.messages answered
    = ChatSession.messages current ++ [userMessage_of now a; reply] /\
    ChatMessage.text reply = text response /\
    ChatMessage.reportData reply = reportData response /\
    ChatMessage.groundingUrls reply = Some (groundingUrls response) /\
    (ChatMessage.isReport reply = Some true <->
     exists v, reportData response = Some v /\ json_truthy v = true) /\
    (ChatMessage.isReport reply = Some true ->
     ChatMessage.reportData reply <> None).
Proof.
  intros Hs Hr Hresp.
  rewrite (handleSendMessage_run now now' a current Hs Hr), Hresp. cbv zeta.
  eexists.
  exists (settledSession_of now now' a current
            (modelMessage_of now' response)),
    (modelMessage_of now' response).
  split; [reflexivity|]. split; [reflexivity|]. split.
  { cbn [settledSession_of withMessages ChatSession.messages
         updatedSession_of]. now rewrite <- app_assoc. }
  cbn [modelMessage_of ChatMessage.text ChatMessage.reportData
       ChatMessage.groundingUrls ChatMessage.isReport].
  repeat split.
  - destruct (reportData response) as [v|]; [|discriminate].
    intros [= H]. now exists v.
  - intros (v & -> & ->). reflexivity.
  - destruct (reportData response); discriminate.
Qed.

(** X13.  The guard of [handleSendMessage]: with no selected session,
    no user, an input that is empty or all white space, or an exchange
    under way, the handler changes nothing, in memory or in the store,
    whatever the store holds and whatever the model channel would
    answer. *)
Theorem guard_ignores (now now' : Ticks) (a : State) :
  currentSession a = None \/ user a = None \/
  trim (inputText a) = [] \/ isProcessing a = true ->
  handleSendMessage JSON_parse gemini now now' a = Ok a.
Proof.
  intros H. unfold handleSendMessage, handleSendMessage_send.
  destruct (currentSession a) as [current|]; [|reflexivity].
  destruct (user a) as [u|]; [|reflexivity].
  destruct H as [H|[H|[H|H]]]; try discriminate.
  - now rewrite H.
  - rewrite H. now rewrite orb_true_r.
Qed.
End ExchangeFacts.

Lemma exchange_appends_two_witness :
  exists a' settled reply,
    handleSendMessage JsonText.read answering clock clock' asking = Ok a' /\
    currentSession a' = Some settled /\
    ChatSession.messages settled
    = [INITIAL_WELCOME_MSG; userMessage_of clock asking; reply] /\
    isProcessing a' = false.
Proof.
  assert (Hs : sendable asking fresh)
    by (repeat split; discriminate || reflexivity).
  assert (Hr : readable (storage asking)) by discriminate.
  destruct (exchange_appends_two JsonText.read answering clock clock' asking
              fresh Hs Hr)
    as (a' & settled & reply & H1 & H2 & H3 & _ & _ & _ & _ & _ & _ & _ & H4).
  exists a', settled, reply. repeat split; assumption.
Defined.

Lemma exchange_answered_witness :
  exists a' answered reply,
    handleSendMessage JsonText.read answering clock clock' asking = Ok a' /\
    sessions a' = [answered] /\
    ChatMessage.text reply
    = js "Here is my analysis of Apple." ++ LF ++ LF
        ++ js "Ask me about another stock." /\
    ChatMessage.reportData reply = Some report_value.
Proof.
  assert (Hs : sendable asking fresh)
    by (repeat split; discriminate || reflexivity).
  assert (Hr : readable (storage asking)) by discriminate.
  destruct (exchange_answered JsonText.read answering clock clock' asking
              fresh _ Hs Hr eq_refl)
    as (a' & answered & reply & H1 & H2 & _ & H3 & H4 & _).
  exists a', answered, reply. repeat split; assumption.
Defined.

Lemma guard_ignores_witness :
  trim (inputText blank_input) = [] /\
  handleSendMessage JsonText.read answering clock clock' blank_input
  = Ok blank_input.
Proof.
  split; [reflexivity|].
  apply guard_ignores. right; right; left. reflexivity.
Defined.

(* ================================================================== *)
(** * Starting, loading and deleting sessions *)
(* ================================================================== *)

Section SessionHandlers.
Implicit Types (a : State) (s current : ChatSession.t)
  (l : list ChatSession.t) (ls : localStorage).

Lemma startNewChat_run userId (now : Ticks) (innerWidth : Z) a :
  readable (storage a) ->
  startNewChat userId now innerWidth a
  = Ok {| user := user a;
          sessions := newSession_of userId now :: sessions a;
          currentSessionId := Some (ChatSession.id (newSession_of userId now));
          inputText := inputText a;
          isProcessing := isProcessing a;
          sidebarOpen :=
            if (innerWidth <? 768)%Z then false else sidebarOpen a;
          storage :=
            Some (Stringified
                    (upsert (newSession_of userId now)
                       (stored_sessions (storage a)))) |}.
Proof.
  intros Hr. unfold startNewChat, stored.
  fold (newSession_of userId now).
  rewrite (saveChatSession_readable _ _ Hr).
  now destruct (innerWidth <? 768)%Z.
Qed.

Lemma startNewChat_Ok userId (now : Ticks) (innerWidth : Z) a a' :
  startNewChat userId now innerWidth a = Ok a' -> readable (storage a).
Proof.
  unfold startNewChat, stored. intros H Hg. rewrite Hg in H. discriminate.
Qed.

Lemma loadSessions_run userId (now : Ticks) (innerWidth : Z) a :
  readable (storage a) ->
  loadSessions userId now innerWidth a
  = match listing userId (storage a) with
    | first :: _ =>
        Ok (setCurrentSessionId (Some (ChatSession.id first))
              (setSessions (fun _ => listing userId (storage a)) a))
    | [] => startNewChat userId now innerWidth (setSessions (fun _ => []) a)
    end.
Proof.
  intros Hr. unfold loadSessions.
  rewrite (getChatSessions_readable userId _ Hr). fold (listing userId (storage a)).
  now destruct (listing userId (storage a)).
Qed.

Lemma sorted_head_newest s l :
  StronglySorted newer_or_same (s :: l) ->
  Forall (fun x => (ChatSession.lastModified x <= ChatSession.lastModified s)%Z)
    (s :: l).
Proof.
  intros H. inversion H as [|? ? _ Hall]; subst.
  constructor; [lia | exact Hall].
Qed.

Lemma find_otherSessions id cid l :
  cid <> id ->
  Array.find (has_id cid) (otherSessions id l) = Array.find (has_id cid) l.
Proof.
  intros Hne. unfold otherSessions. induction l as [|x l IH]; simpl; [reflexivity|].
  destruct (strict_eq (ChatSession.id x) id) eqn:E; simpl.
  - destruct (has_id cid x) eqn:Ec; [|exact IH].
    apply strict_eq_eq in E, Ec. congruence.
  - destruct (has_id cid x); [reflexivity | exact IH].
Qed.
End SessionHandlers.

(** X14.  [loadSessions] on a store that can be read.  Afterwards the
    list in memory is what the store lists for the user, the selected
    session is the head of that list, and no session of the list was
    modified later than the selected one.  When the store lists sessions of the
    user, these are shown and the store is left as it is; when it lists
    none, one new session with the welcome message is made, stored and
    shown. *)
Theorem loadSessions_spec (userId : jsstring) (now : Ticks)
  (innerWidth : Z) (a : State) :
  readable (storage a) ->
  exists a' first,
    loadSessions userId now innerWidth a = Ok a' /\
    getChatSessions userId (storage a') = Ok (sessions a') /\
    currentSession a' = Some first /\
    hd_error (sessions a') = Some first /\
    currentSessionId a' = Some (ChatSession.id first) /\
    Forall (fun s => (ChatSession.lastModified s
                      <= ChatSession.lastModified first)%Z) (sessions a') /\
    (listing userId (storage a) <> [] ->
     sessions a' = listing userId (storage a) /\ storage a' = storage a) /\
    (listing userId (storage a) = [] ->
     sessions a' = [newSession_of userId now]).
Proof.
  intros Hr. rewrite (loadSessions_run userId now innerWidth a Hr).
  destruct (listing userId (storage a)) as [|first rest] eqn:El.
  - rewrite startNewChat_run by exact Hr.
    cbn [setSessions sessions storage].
    eexists. exists (newSession_of userId now).
    split; [reflexivity|]. cbn [sessions storage currentSessionId].
    assert (Hnone : filter (owned_by userId) (stored_sessions (storage a)) = []).
    { apply Permutation_nil. rewrite <- El. apply sort_perm. }
    split.
    { rewrite getChatSessions_readable by discriminate. simpl stored_sessions.
      rewrite (upsert_only_owned _ _ _ Hnone); [reflexivity|].
      apply strict_eq_refl. }
    split.
    { unfold currentSession. cbn [currentSessionId sessions].
      now apply find_head. }
    split; [reflexivity|]. split; [reflexivity|].
    split; [repeat constructor; lia|].
    split; [intros H; now elim H | reflexivity].
  - eexists. exists first. split; [reflexivity|].
    cbn [setCurrentSessionId setSessions sessions storage currentSessionId].
    split.
    { rewrite (getChatSessions_readable userId _ Hr).
      fold (listing userId (storage a)). now rewrite El. }
    split.
    { unfold currentSession. cbn [currentSessionId sessions].
      now apply find_head. }
    split; [reflexivity|]. split; [reflexivity|].
    split.
    { apply sorted_head_newest. rewrite <- El. apply sort_sorted. }
    split; [intros _; split; reflexivity | discriminate].
Qed.

(** X15.  Deleting a session that is not the selected one: it leaves
    the list in memory without the session, the selection and the
    selected session as they were, and the listing of the store for
    every user without the session. *)
Theorem delete_other_session (id : jsstring) (now : Ticks) (innerWidth : Z)
  (a : State) (userId : jsstring) (listed : list ChatSession.t) :
  currentSessionId a <> Some id ->
  getChatSessions userId (storage a) = Ok listed ->
  exists a',
    handleDeleteSession id now innerWidth a = Ok a' /\
    sessions a' = otherSessions id (sessions a) /\
    currentSessionId a' = currentSessionId a /\
    currentSession a' = currentSession a /\
    getChatSessions userId (storage a')
    = Ok (filter (fun s => negb (has_id id s)) listed).
Proof.
  intros Hsel Hget.
  destruct (getChatSessions_after_delete userId id _ listed Hget)
    as (ls' & Hdel & _ & Hget' & _).
  unfold handleDeleteSession, stored. rewrite Hdel.
  unfold setSessions, setStorage.
  cbn [user sessions currentSessionId inputText isProcessing sidebarOpen
       storage].
  assert (E : forall b : result State,
    match currentSessionId a with
    | Some current => if strict_eq current id then b
                      else Ok {| user := user a;
                                 sessions := otherSessions id (sessions a);
                                 currentSessionId := currentSessionId a;
                                 inputText := inputText a;
                                 isProcessing := isProcessing a;
                                 sidebarOpen := sidebarOpen a;
                                 storage := ls' |}
    | None => Ok {| user := user a;
                    sessions := otherSessions id (sessions a);
                    currentSessionId := currentSessionId a;
                    inputText := inputText a;
                    isProcessing := isProcessing a;
                    sidebarOpen := sidebarOpen a;
                    storage := ls' |}
    end
    = Ok {| user := user a;
            sessions := otherSessions id (sessions a);
            currentSessionId := currentSessionId a;
            inputText := inputText a;
            isProcessing := isProcessing a;
            sidebarOpen := sidebarOpen a;
            storage := ls' |}).
  { intros b. destruct (currentSessionId a) as [current|]; [|reflexivity].
    destruct (strict_eq current id) eqn:E; [|reflexivity].
    apply strict_eq_eq in E. congruence. }
  rewrite E. eexists. split; [reflexivity|].
  cbn [sessions currentSessionId storage]. repeat split; try assumption.
  unfold currentSession. cbn [currentSessionId sessions].
  destruct (currentSessionId a) as [cid|]; [|reflexivity].
  apply find_otherSessions. congruence.
Qed.

(** X16.  A title derived from the first user message begins with the
    first 30 code units of the message and ends there or with "...", so
    that it has at most 33 code units; it is empty only for an empty
    message, which the guard of [handleSendMessage] does not let
    through. *)
Theorem derived_title_bounds (current : ChatSession.t) (inputText : jsstring) :
  List.length (ChatSession.messages current) <= 1 ->
  (updatedTitle current inputText = firstn 30 inputText \/
   updatedTitle current inputText = firstn 30 inputText ++ js "...") /\
  List.length (updatedTitle current inputText) <= 33 /\
  (updatedTitle current inputText = [] -> inputText = []).
Proof.
  intros H. unfold updatedTitle, substring0.
  apply Nat.leb_le in H. rewrite H.
  destruct (30 <? List.length inputText) eqn:E.
  - apply Nat.ltb_lt in E. split; [now right|]. split.
    + rewrite length_app, length_firstn.
      change (List.length (js "...")) with 3. lia.
    + intros Hnil. apply (f_equal (@List.length _)) in Hnil.
      rewrite length_app in Hnil.
      change (List.length (js "...")) with 3 in Hnil.
      simpl (List.length []) in Hnil. lia.
  - apply Nat.ltb_ge in E. rewrite firstn_all2 by lia.
    split; [now left|]. split; [lia | auto].
Qed.

Lemma loadSessions_spec_witness :
  exists a',
    loadSessions demo clock 1024 (Login.app logged_out) = Ok a' /\
    sessions a' = [S1; S2] /\
    currentSession a' = Some S1.
Proof.
  assert (Hr : readable (storage (Login.app logged_out))) by discriminate.
  destruct (loadSessions_spec demo clock 1024 (Login.app logged_out) Hr)
    as (a' & first & Hload & _ & Hcur & Hhd & _ & _ & Hsome & _).
  exists a'. split; [exact Hload|].
  destruct Hsome as [Hs _]; [discriminate|].
  split; [exact Hs|].
  rewrite Hcur, <- Hhd, Hs. reflexivity.
Defined.

Lemma delete_other_session_witness :
  exists a',
    handleDeleteSession (ChatSession.id S1) clock 1024 second_selected = Ok a' /\
    sessions a' = [S2] /\
    currentSession a' = Some S2 /\
    getChatSessions demo (storage a') = Ok [S2].
Proof.
  destruct (delete_other_session (ChatSession.id S1) clock 1024
              second_selected demo [S1; S2])
    as (a' & H1 & H2 & _ & H3 & H4).
  - discriminate.
  - reflexivity.
  - exists a'. repeat split; assumption.
Defined.

Lemma derived_title_bounds_witness :
  List.length (updatedTitle fresh NVDA_QUESTION) <= 33.
Proof.
  apply (derived_title_bounds fresh NVDA_QUESTION). simpl. lia.
Defined.

(* ================================================================== *)
(** * The loading placeholder never outlives a handler *)
(* ================================================================== *)

Section Spotless.
Variable JSON_parse : jsstring -> option json.
Variable gemini : jsstring -> Channel.
Implicit Types (a : State) (s current : ChatSession.t)
  (l : list ChatSession.t) (ls : localStorage).

Lemma upsert_Forall (P : ChatSession.t -> Prop) s l :
  P s -> Forall P l -> Forall P (upsert s l).
Proof.
  intros Hs Hl. apply Forall_forall. intros x Hx.
  apply upsert_In_inv in Hx as [->|Hx]; [assumption|].
  exact (proj1 (Forall_forall _ _) Hl _ Hx).
Qed.

Lemma filter_Forall (P : ChatSession.t -> Prop) (f : ChatSession.t -> bool) l :
  Forall P l -> Forall P (filter f l).
Proof.
  intros Hl. apply Forall_forall. intros x Hx. apply filter_In in Hx as [Hx _].
  exact (proj1 (Forall_forall _ _) Hl _ Hx).
Qed.

Lemma listing_Forall (P : ChatSession.t -> Prop) userId ls :
  Forall P (stored_sessions ls) -> Forall P (listing userId ls).
Proof.
  intros Hl. unfold listing.
  eapply Permutation_Forall; [apply Permutation_sym, sort_perm|].
  now apply filter_Forall.
Qed.

Lemma newSession_clean userId (now : Ticks) :
  no_placeholder (ChatSession.messages (newSession_of userId now)).
Proof. repeat constructor. Qed.

Lemma startNewChat_spotless userId (now : Ticks) (innerWidth : Z) a a' :
  spotless a -> startNewChat userId now innerWidth a = Ok a' -> spotless a'.
Proof.
  intros [Ht Hs] H.
  pose proof (startNewChat_Ok _ _ _ _ _ H) as Hr.
  rewrite (startNewChat_run userId now innerWidth a Hr) in H.
  injection H as <-. split.
  - unfold tidy. cbn [sessions]. constructor; [apply newSession_clean | exact Ht].
  - unfold store_tidy. cbn [storage stored_sessions].
    apply upsert_Forall; [apply newSession_clean | exact Hs].
Qed.

Lemma loadSessions_spotless userId (now : Ticks) (innerWidth : Z) a a' :
  spotless a -> loadSessions userId now innerWidth a = Ok a' -> spotless a'.
Proof.
  intros [Ht Hs] H.
  assert (Hr : readable (storage a)).
  { intros Hg. unfold loadSessions in H. rewrite Hg in H. discriminate. }
  rewrite (loadSessions_run userId now innerWidth a Hr) in H.
  destruct (listing userId (storage a)) as [|first rest] eqn:El.
  - apply (startNewChat_spotless _ _ _ _ _) in H; [exact H|].
    split; [constructor | exact Hs].
  - injection H as <-. split; [|exact Hs].
    unfold tidy. cbn [setCurrentSessionId setSessions sessions].
    rewrite <- El. now apply listing_Forall.
Qed.

Lemma handleDeleteSession_spotless id (now : Ticks) (innerWidth : Z) a a' :
  spotless a -> handleDeleteSession id now innerWidth a = Ok a' -> spotless a'.
Proof.
  intros [Ht Hs] H. unfold handleDeleteSession, stored in H.
  destruct (deleteChatSession id (storage a)) as [ls'|] eqn:Hdel;
    [|discriminate].
  assert (Hr : readable (storage a)).
  { intros Hg. rewrite Hg in Hdel. discriminate. }
  destruct (deleteChatSession_readable id _ Hr) as (ls'' & Hdel' & _ & Hst).
  rewrite Hdel in Hdel'. injection Hdel' as <-.
  set (b := setSessions (fun _ => otherSessions id (sessions a))
              (setStorage ls' a)).
  assert (Hb : spotless b).
  { split.
    - unfold tidy, b. cbn [setSessions sessions].
      now apply filter_Forall.
    - unfold store_tidy, b. cbn [setSessions setStorage storage].
      rewrite Hst. now apply filter_Forall. }
  cbn [setStorage sessions currentSessionId] in H. fold b in H.
  destruct (currentSessionId a) as [cur|]; [|now injection H as <-].
  destruct (strict_eq cur id); [|now injection H as <-].
  destruct (otherSessions id (sessions a)) as [|next rest] eqn:Eo.
  - destruct (user b) as [u|].
    + now apply (startNewChat_spotless _ _ _ _ _ Hb) in H.
    + now injection H as <-.
  - now injection H as <-.
Qed.

Lemma handleSendMessage_spotless (now now' : Ticks) a a' :
  spotless a ->
  handleSendMessage JSON_parse gemini now now' a = Ok a' -> spotless a'.
Proof.
  intros [Ht Hs] H. split.
  { exact (exchange_leaves_no_placeholder JSON_parse gemini now now' a a' Ht H). }
  destruct (handleSendMessage_send_cases now a)
    as [E|[E|(current & Hsend & Hr)]].
  - unfold handleSendMessage in H. rewrite E in H. now injection H as <-.
  - unfold handleSendMessage in H. rewrite E in H. discriminate.
  - rewrite (handleSendMessage_run JSON_parse gemini now now' a current Hsend Hr)
      in H.
    assert (Hprior : no_placeholder (ChatSession.messages current)).
    { destruct Hsend as (Hcur & _). unfold currentSession in Hcur.
      destruct (currentSessionId a) as [cid|]; [|discriminate].
      apply (find_has_id cid) in Hcur as [_ Hin].
      exact (proj1 (Forall_forall _ _) Ht _ Hin). }
    assert (Hupd : no_placeholder
                     (ChatSession.messages (updatedSession_of now a current))).
    { cbn [updatedSession_of withMessages ChatSession.messages].
      apply no_placeholder_app; [exact Hprior | repeat constructor]. }
    assert (Hset : forall last, ChatMessage.isLoading last = None ->
              no_placeholder
                (ChatSession.messages (settledSession_of now now' a current last))).
    { intros last Hl. unfold settledSession_of.
      cbn [withMessages ChatSession.messages].
      apply no_placeholder_app; [exact Hupd | now repeat constructor]. }
    injection H as <-. unfold store_tidy.
    destruct (sendMessageToGemini JSON_parse (gemini (inputText a)));
      cbn [storage stored_sessions];
      (apply upsert_Forall; [now apply Hset|]);
      (apply upsert_Forall; [exact Hupd | exact Hs]).
Qed.
End Spotless.

(** X17.  The loading placeholder never outlives a handler.  When no
    session in memory or in the store holds a loading placeholder, none
    does after a whole exchange, after starting a new chat, after
    loading the sessions of a user, or after deleting a session. *)
Theorem handlers_keep_spotless (JSON_parse : jsstring -> option json)
  (gemini : jsstring -> Channel) (userId id : jsstring) (now now' : Ticks)
  (innerWidth : Z) (a a' : State) :
  spotless a ->
  handleSendMessage JSON_parse gemini now now' a = Ok a' \/
  startNewChat userId now innerWidth a = Ok a' \/
  loadSessions userId now innerWidth a = Ok a' \/
  handleDeleteSession id now innerWidth a = Ok a' ->
  spotless a'.
Proof.
  intros Hs [H|[H|[H|H]]].
  - exact (handleSendMessage_spotless _ _ _ _ _ _ Hs H).
  - exact (startNewChat_spotless _ _ _ _ _ Hs H).
  - exact (loadSessions_spotless _ _ _ _ _ Hs H).
  - exact (handleDeleteSession_spotless _ _ _ _ _ Hs H).
Qed.

Lemma handlers_keep_spotless_witness :
  exists a',
    handleDeleteSession (ChatSession.id S1) clock 1024 second_selected = Ok a' /\
    spotless a'.
Proof.
  eexists. split; [reflexivity|].
  apply (handlers_keep_spotless (fun _ => None) offline demo
           (ChatSession.id S1) clock clock 1024 second_selected).
  - split; repeat constructor.
  - right; right; right. reflexivity.
Defined.

(* ================================================================== *)
(** * Login, logout and the check when the component mounts *)
(* ================================================================== *)

Section LoginFacts.
Import Login.
Implicit Types (a : State) (b : Browser) (ls : localStorage).

(** What [loadSessions] leaves when the store can be read. *)
Lemma loadSessions_shape userId (now : Ticks) (innerWidth : Z) a :
  readable (storage a) ->
  exists first rest open ls,
    loadSessions userId now innerWidth a
    = Ok {| user := user a;
            sessions := first :: rest;
            currentSessionId := Some (ChatSession.id first);
            inputText := inputText a;
            isProcessing := isProcessing a;
            sidebarOpen := open;
            storage := ls |} /\
    readable ls /\
    getChatSessions userId ls = Ok (first :: rest) /\
    (listing userId (storage a) <> [] ->
     first :: rest = listing userId (storage a) /\ ls = storage a).
Proof.
  intros Hr. rewrite (loadSessions_run userId now innerWidth a Hr).
  destruct (listing userId (storage a)) as [|first rest] eqn:El.
  - rewrite startNewChat_run by exact Hr.
    cbn [setSessions user sessions inputText isProcessing sidebarOpen storage].
    exists (newSession_of userId now), []. do 2 eexists.
    split; [reflexivity|]. split; [discriminate|]. split.
    + rewrite getChatSessions_readable by discriminate. simpl stored_sessions.
      rewrite (upsert_only_owned _ (newSession_of userId now)
                 (stored_sessions (storage a))); [reflexivity| |].
      * apply Permutation_nil. rewrite <- El. apply sort_perm.
      * apply strict_eq_refl.
    + intros H. now elim H.
  - exists first, rest, (sidebarOpen a), (storage a).
    split; [reflexivity|]. split; [exact Hr|]. split.
    + rewrite (getChatSessions_readable userId _ Hr).
      fold (listing userId (storage a)). now rewrite El.
    + intros _. split; reflexivity.
Qed.

Lemma loadSessions_Garbled userId (now : Ticks) (innerWidth : Z) a :
  storage a = Some Garbled -> loadSessions userId now innerWidth a = Throw.
Proof. intros H. unfold loadSessions. now rewrite H. Qed.

Lemma handleLogin_readable (now : Ticks) (innerWidth : Z) b :
  readable (storage (app b)) ->
  exists first rest open ls,
    handleLogin now innerWidth b
    = {| app := {| user := Some DEMO_USER;
                   sessions := first :: rest;
                   currentSessionId := Some (ChatSession.id first);
                   inputText := inputText (app b);
                   isProcessing := isProcessing (app b);
                   sidebarOpen := open;
                   storage := ls |};
         isLoginLoading := false;
         overunder_user := Some (UserStringified DEMO_USER) |} /\
    readable ls /\
    getChatSessions (User.id DEMO_USER) ls = Ok (first :: rest) /\
    (listing (User.id DEMO_USER) (storage (app b)) <> [] ->
     first :: rest = listing (User.id DEMO_USER) (storage (app b)) /\
     ls = storage (app b)).
Proof.
  intros Hr.
  destruct (loadSessions_shape (User.id DEMO_USER) now innerWidth
              (setUser (Some DEMO_USER) (app b)) Hr)
    as (first & rest & open & ls & Hload & Hls & Hget & Hsome).
  exists first, rest, open, ls.
  split; [|split; [exact Hls | split; [exact Hget | exact Hsome]]].
  unfold handleLogin, mockGoogleLogin, loadSessions_caught.
  cbn [setIsLoginLoading setUserItem app isLoginLoading overunder_user].
  now rewrite Hload.
Qed.
End LoginFacts.

(** X18.  Login when the session store cannot be read.  [loadSessions]
    throws, the [catch] of [handleLogin] only logs, and the login ends
    with the demo user logged in and stored, [isLoginLoading] false
    again, and the sessions, the selection and the store as they were:
    no session is loaded and none is created. *)
Theorem login_with_corrupt_store (now : Ticks) (innerWidth : Z)
  (b : Login.Browser) :
  storage (Login.app b) = Some Garbled ->
  Login.handleLogin now innerWidth b
  = {| Login.app := Login.setUser (Some Login.DEMO_USER) (Login.app b);
       Login.isLoginLoading := false;
       Login.overunder_user :=
         Some (Login.UserStringified Login.DEMO_USER) |}.
Proof.
  intros Hg.
  unfold Login.handleLogin, Login.mockGoogleLogin, Login.loadSessions_caught.
  cbn [Login.setIsLoginLoading Login.setUserItem Login.app
       Login.isLoginLoading Login.overunder_user].
  rewrite loadSessions_Garbled by exact Hg.
  unfold Login.setUser at 1. cbn [storage]. rewrite Hg. reflexivity.
Qed.

(** X19.  Login when the session store can be read.  The demo user is
    logged in and stored, [isLoginLoading] is false again, the list in
    memory is the listing of the store for the demo user and is not
    empty, the session selected is its first one, and the input is left
    as it was. *)
Theorem login_loads_sessions (now : Ticks) (innerWidth : Z)
  (b : Login.Browser) :
  readable (storage (Login.app b)) ->
  let b' := Login.handleLogin now innerWidth b in
  user (Login.app b') = Some Login.DEMO_USER /\
  Login.getCurrentUser b' = Ok (Some Login.DEMO_USER) /\
  Login.isLoginLoading b' = false /\
  getChatSessions (User.id Login.DEMO_USER) (storage (Login.app b'))
  = Ok (sessions (Login.app b')) /\
  currentSession (Login.app b') = hd_error (sessions (Login.app b')) /\
  sessions (Login.app b') <> [] /\
  inputText (Login.app b') = inputText (Login.app b).
Proof.
  intros Hr b'.
  destruct (handleLogin_readable now innerWidth b Hr)
    as (first & rest & open & ls & E & _ & Hget & _).
  subst b'. rewrite E.
  cbn [Login.app Login.isLoginLoading user sessions storage inputText hd_error].
  repeat split; try assumption; try discriminate.
  unfold currentSession. cbn [currentSessionId sessions].
  now apply find_head.
Qed.

(** X20.  Logout and login again.  [handleLogout] forgets the user, the
    sessions and the selection but leaves the session store alone, so
    that a login after it shows again what the store lists for the demo
    user, when it lists anything, and leaves the store as it was. *)
Theorem logout_then_login (now : Ticks) (innerWidth : Z)
  (b : Login.Browser) :
  readable (storage (Login.app b)) ->
  listing (User.id Login.DEMO_USER) (storage (Login.app b)) <> [] ->
  Login.getCurrentUser (Login.handleLogout b) = Ok None /\
  user (Login.app (Login.handleLogout b)) = None /\
  sessions (Login.app (Login.handleLogout b)) = [] /\
  currentSession (Login.app (Login.handleLogout b)) = None /\
  let b' := Login.handleLogin now innerWidth (Login.handleLogout b) in
  sessions (Login.app b')
  = listing (User.id Login.DEMO_USER) (storage (Login.app b)) /\
  storage (Login.app b') = storage (Login.app b).
Proof.
  intros Hr Hsome. repeat split.
  - assert (Hr' : readable (storage (Login.app (Login.handleLogout b))))
      by exact Hr.
    destruct (handleLogin_readable now innerWidth _ Hr')
      as (first & rest & open & ls & E & _ & _ & H).
    rewrite E. cbn [Login.app sessions].
    now destruct (H Hsome) as [-> _].
  - assert (Hr' : readable (storage (Login.app (Login.handleLogout b))))
      by exact Hr.
    destruct (handleLogin_readable now innerWidth _ Hr')
      as (first & rest & open & ls & E & _ & _ & H).
    rewrite E. cbn [Login.app storage].
    now destruct (H Hsome) as [_ ->].
Qed.

(** X21.  The check made when the component mounts.  It throws, and
    nothing catches it, when the user key of the store cannot be parsed,
    and when a user is stored and the session store cannot be parsed.
    It leaves everything as it is when no user is stored.  It logs the
    stored user in when the session store is absent, empty or holds an
    array of sessions. *)
Theorem initAuth_throws (now : Ticks) (innerWidth : Z) (b : Login.Browser) :
  (Login.overunder_user b = Some Login.UserGarbled \/
   ((exists u, Login.overunder_user b = Some (Login.UserStringified u)) /\
    storage (Login.app b) = Some Garbled) ->
   Login.initAuth now innerWidth b = Throw) /\
  (Login.overunder_user b = None \/
   Login.overunder_user b = Some Login.UserBlank ->
   Login.initAuth now innerWidth b = Ok b) /\
  (forall u,
     Login.overunder_user b = Some (Login.UserStringified u) ->
     storage (Login.app b) = None \/
     storage (Login.app b) = Some Blank \/
     (exists allSessions,
        storage (Login.app b) = Some (Stringified allSessions)) ->
     exists b',
       Login.initAuth now innerWidth b = Ok b' /\
       user (Login.app b') = Some u /\
       Login.overunder_user b' = Login.overunder_user b).
Proof.
  unfold Login.initAuth, Login.getCurrentUser. split; [|split].
  - intros [H|[[u H] Hg]]; rewrite H; simpl; [reflexivity|].
    now rewrite loadSessions_Garbled.
  - intros [H|H]; rewrite H; reflexivity.
  - intros u H Hs. rewrite H. simpl.
    assert (Hr : readable (storage (Login.setUser (Some u) (Login.app b)))).
    { cbn [Login.setUser storage].
      destruct Hs as [E|[E|[l E]]]; rewrite E; discriminate. }
    destruct (loadSessions_shape (User.id u) now innerWidth _ Hr)
      as (first & rest & open & ls & -> & _).
    eexists. split; [reflexivity|]. split; [reflexivity|].
    cbn [Login.withApp Login.overunder_user]. exact H.
Qed.

(** X22.  Loading the page again after a login.  When the session
    store could be read at the login, the check made when the component
    mounts anew logs the stored user in again and shows the sessions
    and the selection that the login left, without writing to the
    store. *)
Theorem reload_after_login (now now' : Ticks) (innerWidth innerWidth' : Z)
  (b : Login.Browser) :
  readable (storage (Login.app b)) ->
  let b' := Login.handleLogin now innerWidth b in
  exists b'',
    Login.initAuth now' innerWidth' (Login.mounted b') = Ok b'' /\
    user (Login.app b'') = Some Login.DEMO_USER /\
    sessions (Login.app b'') = sessions (Login.app b') /\
    currentSessionId (Login.app b'') = currentSessionId (Login.app b') /\
    storage (Login.app b'') = storage (Login.app b').
Proof.
  intros Hr b'. subst b'.
  destruct (handleLogin_readable now innerWidth b Hr)
    as (first & rest & open & ls & -> & Hls & Hget & _).
  unfold Login.initAuth, Login.getCurrentUser, Login.mounted.
  cbn [Login.overunder_user Login.truthy_user_item Login.JSON_parse_user
       Login.app].
  unfold loadSessions. cbn [Login.setUser storage]. rewrite Hget.
  eexists. split; [reflexivity|]. repeat split.
Qed.

Lemma login_with_corrupt_store_witness :
  user (Login.app (Login.handleLogin clock 1024 logged_out_corrupt))
  = Some Login.DEMO_USER /\
  sessions (Login.app (Login.handleLogin clock 1024 logged_out_corrupt)) = [].
Proof.
  rewrite (login_with_corrupt_store clock 1024 logged_out_corrupt);
    [split|]; reflexivity.
Defined.

Lemma login_loads_sessions_witness :
  sessions (Login.app (Login.handleLogin clock 1024 logged_out)) <> [].
Proof.
  apply (login_loads_sessions clock 1024 logged_out). discriminate.
Defined.

Lemma logout_then_login_witness :
  sessions (Login.app (Login.handleLogin clock 1024
                         (Login.handleLogout logged_in)))
  = [S1; S2].
Proof.
  refine (proj1 (proj2 (proj2 (proj2 (proj2
            (logout_then_login clock 1024 logged_in _ _)))))).
  - discriminate.
  - discriminate.
Defined.

Lemma initAuth_throws_witness :
  Login.initAuth clock 1024
    (Login.setUserItem (Some (Login.UserStringified Login.DEMO_USER))
       logged_out_corrupt)
  = Throw.
Proof.
  apply (proj1 (initAuth_throws clock 1024 _)).
  right. split; [now exists Login.DEMO_USER | reflexivity].
Defined.

Lemma reload_after_login_witness :
  exists b'',
    Login.initAuth clock' 1024
      (Login.mounted (Login.handleLogin clock 1024 logged_out)) = Ok b'' /\
    sessions (Login.app b'') = [S1; S2].
Proof.
  destruct (reload_after_login clock clock' 1024 1024 logged_out)
    as (b'' & E & _ & Hs & _); [discriminate|].
  exists b''. split; [exact E | exact Hs].
Defined.

(* ================================================================== *)
(** * The heuristic of [MetricRangeBar] *)
(* ================================================================== *)

Section HeuristicFacts.
Import MetricRangeBar.
Implicit Types (s body m : jsstring) (c d : code_unit).

Lemma includes_zero_has_digit s :
  includes_zero s = true -> has_digit s = true.
Proof.
  unfold includes_zero, has_digit. induction s as [|c s IH]; simpl; [auto|].
  intros H. apply orb_true_iff in H as [H|H].
  - apply N.eqb_eq in H. subst c. reflexivity.
  - rewrite (IH H). apply orb_true_r.
Qed.

Lemma has_digit_remove_commas s :
  has_digit (remove_commas s) = has_digit s.
Proof.
  unfold has_digit, remove_commas. induction s as [|c s IH]; simpl; [auto|].
  destruct (c =? COMMA)%N eqn:E; simpl; rewrite IH; [|reflexivity].
  apply N.eqb_eq in E. subst c. reflexivity.
Qed.

Lemma includes_zero_remove_commas s :
  includes_zero s = false -> includes_zero (remove_commas s) = false.
Proof.
  unfold includes_zero, remove_commas.
  induction s as [|c s IH]; simpl; [auto|].
  intros H. apply orb_false_iff in H as [Hc Hs].
  destruct (negb (c =? COMMA)%N); simpl; rewrite ?Hc; auto.
Qed.

Lemma numeric_at_digit c s :
  is_digit c = true -> numeric_at (c :: s) <> None.
Proof.
  intros Hc. unfold numeric_at.
  destruct (c =? MINUS)%N eqn:E.
  - apply N.eqb_eq in E. subst c. discriminate.
  - unfold takeDigits. simpl. rewrite Hc. discriminate.
Qed.

Lemma first_numeric_digit s :
  has_digit s = true -> first_numeric s <> None.
Proof.
  unfold has_digit. induction s as [|c s IH]; simpl existsb; [discriminate|].
  intros H. simpl first_numeric.
  destruct (numeric_at (c :: s)) eqn:E; [discriminate|].
  apply orb_true_iff in H as [H|H]; [|exact (IH H)].
  now apply numeric_at_digit in E.
Qed.

(** Every digit that follows multiplies what was read by ten. *)
Lemma digits_value_scale (ds : jsstring) (acc : Z) :
  (0 <= acc)%Z ->
  (acc * 10 ^ Z.of_nat (List.length ds)
   <= fold_left (fun acc d => (10 * acc + Z.of_N (d - 0x30))%Z) ds acc)%Z.
Proof.
  revert acc. induction ds as [|d ds IH]; intros acc Hacc.
  - cbn [fold_left List.length]. change (10 ^ Z.of_nat 0)%Z with 1%Z. lia.
  - cbn [fold_left List.length]. rewrite Nat2Z.inj_succ, Z.pow_succ_r by lia.
    apply Z.le_trans
      with ((10 * acc + Z.of_N (d - 0x30)) * 10 ^ Z.of_nat (List.length ds))%Z;
      [|apply IH; lia].
    assert (0 <= 10 ^ Z.of_nat (List.length ds))%Z by (apply Z.pow_nonneg; lia).
    nia.
Qed.

Lemma digits_value_pos d (ds : jsstring) :
  is_digit d = true -> (d =? 0x30)%N = false ->
  (10 ^ Z.of_nat (List.length ds) <= digits_value (d :: ds))%Z.
Proof.
  intros Hd Hz. unfold digits_value. cbn [fold_left].
  unfold is_digit in Hd. apply andb_true_iff in Hd as [Hlo Hhi].
  apply N.leb_le in Hlo. apply N.eqb_neq in Hz.
  eapply Z.le_trans; [|apply digits_value_scale; lia].
  assert (0 <= 10 ^ Z.of_nat (List.length ds))%Z by (apply Z.pow_nonneg; lia).
  nia.
Qed.

(** A decimal number whose first digit is not 0 is at least one. *)
Lemma decimal_ge_1 d (whole fraction : jsstring) :
  is_digit d = true -> (d =? 0x30)%N = false ->
  (Zpos (Qden (decimal false (d :: whole) fraction))
   <= Qnum (decimal false (d :: whole) fraction))%Z.
Proof.
  intros Hd Hz.
  pose proof (digits_value_pos d (whole ++ fraction) Hd Hz) as Hv.
  rewrite length_app, Nat2Z.inj_add, Z.pow_add_r in Hv by lia.
  assert (Hw : (1 <= 10 ^ Z.of_nat (List.length whole))%Z)
    by (apply Z.lt_pred_le, Z.pow_pos_nonneg; lia).
  assert (Hf : (0 < 10 ^ Z.of_nat (List.length fraction))%Z)
    by (apply Z.pow_pos_nonneg; lia).
  assert (H1 : (1 <= decimal false (d :: whole) fraction)%Q).
  { unfold decimal. rewrite Qred_correct. unfold Qle. cbn [Qnum Qden].
    rewrite Z2Pos.id by exact Hf.
    change ((d :: whole) ++ fraction) with (d :: whole ++ fraction). nia. }
  unfold Qle in H1. cbn [Qnum Qden] in H1. lia.
Qed.

Lemma numeric_at_nonzero s m :
  numeric_at s = Some m -> includes_zero s = false ->
  nonzero (parseFloat m) = true.
Proof.
  intros E Hz.
  apply numeric_at_value in E
    as (negative & d & whole & fraction & rest & Eb & Hd & ->).
  assert (Hd0 : (d =? 0x30)%N = false).
  { assert (Hb : includes_zero (d :: rest) = false).
    { rewrite <- Eb. destruct negative; [|exact Hz].
      destruct s as [|c s]; [reflexivity|].
      unfold includes_zero in Hz. simpl in Hz.
      now apply orb_false_iff in Hz as [_ Hz]. }
    unfold includes_zero in Hb. simpl in Hb.
    now apply orb_false_iff in Hb as [Hb _]. }
  pose proof (decimal_ge_1 d whole fraction Hd Hd0) as Hge.
  pose proof (fun sg => roundMV_not_zero negative sg _ Hge) as Hnz.
  destruct (roundMV negative (decimal false (d :: whole) fraction))
    as [zero| | |]; try reflexivity.
  now elim (Hnz zero).
Qed.

Lemma first_numeric_nonzero s m :
  first_numeric s = Some m -> includes_zero s = false ->
  nonzero (parseFloat m) = true.
Proof.
  induction s as [|c s IH]; simpl first_numeric; [discriminate|].
  destruct (numeric_at (c :: s)) eqn:E.
  - intros [= <-]. now apply numeric_at_nonzero.
  - intros H Hz. apply IH; [exact H|].
    unfold includes_zero in Hz. simpl in Hz.
    now apply orb_false_iff in Hz as [_ Hz].
Qed.

Lemma parsed_or_zero_Str (numberToString : number -> jsstring) s :
  parsed_or_zero numberToString (Str s) = has_digit s.
Proof.
  unfold parsed_or_zero. cbn [valToString].
  destruct (includes_zero s) eqn:Ez.
  - rewrite orb_true_r. symmetry. now apply includes_zero_has_digit.
  - rewrite orb_false_r, parseValue_first_numeric.
    destruct (has_digit s) eqn:Ed.
    + pose proof (first_numeric_digit (remove_commas s)) as Hsome.
      rewrite has_digit_remove_commas in Hsome. specialize (Hsome Ed).
      destruct (first_numeric (remove_commas s)) as [m|] eqn:Em;
        [|now elim Hsome].
      exact (first_numeric_nonzero _ _ Em (includes_zero_remove_commas s Ez)).
    + rewrite first_numeric_no_digit; [reflexivity|].
      now apply remove_commas_no_digit.
Qed.
End HeuristicFacts.

(** X23.  The heuristic of [MetricRangeBar], whatever the texts.  When
    the text of each of the two zeros holds the digit 0, the range bar
    is drawn exactly when each of the value and the benchmark is a
    number or a string that holds a digit; the fallback card is shown
    otherwise. *)
Theorem isValid_spec (numberToString : number -> jsstring)
  (metric : MetricRangeBar.StockMetric) :
  (forall negative,
     MetricRangeBar.includes_zero
       (numberToString (SpecFloat.S754_zero negative)) = true) ->
  MetricRangeBar.isValid numberToString metric
  = looks_numeric (MetricRangeBar.value metric)
    && looks_numeric (MetricRangeBar.benchmark metric).
Proof.
  intros Hzero.
  assert (H : forall val,
            MetricRangeBar.parsed_or_zero numberToString val
            = looks_numeric val).
  { intros [s|n]; [apply parsed_or_zero_Str|].
    unfold MetricRangeBar.parsed_or_zero. cbn [parseValue looks_numeric].
    destruct n as [negative| | |]; try reflexivity. simpl. apply Hzero. }
  unfold MetricRangeBar.isValid. now rewrite !H.
Qed.

Lemma isValid_spec_witness :
  MetricRangeBar.isValid zero_toString pe_ratio = true /\
  MetricRangeBar.isValid zero_toString no_dividend = false.
Proof.
  assert (Hzero : forall negative,
            MetricRangeBar.includes_zero
              (zero_toString (SpecFloat.S754_zero negative)) = true).
  { intros negative. reflexivity. }
  split; rewrite (isValid_spec zero_toString _ Hzero); reflexivity.
Defined.
